(** * Dependency wheel chart (js/d3.dependencyWheel.js)

    A shallow embedding of the chart constructor [d3.chart.dependencyWheel],
    of the event handlers it installs ([fade], [getChosenNode]), of the
    rotation it computes for the root group, and of the chord layout object
    of the d3 library that the chart configures and queries
    ([d3.layout.chord]).

    Conventions.
    - Matrix weights are integers ([Z]).  The wheel and the layout it is
      built from carry their angles as exact rationals ([Q]): which
      groups and chords exist, their order and their indices do not depend
      on rounding.  The values the angles take in the doubles of the code
      are followed separately, in module [Binary64].
    - [Math.PI] is the double nearest to pi, which is the rational
      884279719003555 / 2^48.
    - Array reads out of range give [undefined]; a property access on
      [undefined] throws, which the model renders as [None]. *)

From Stdlib Require Import String List ZArith QArith Bool Lia Lqa Arith.
From Stdlib Require Import Ascii DecimalString DecimalZ Floats.
Import ListNotations.

Set Implicit Arguments.

(** ** JavaScript values that cross the chart's interface *)

(** [data.packages[i]]: an object carrying a [name] property. *)
Record package := { name : string }.

Inductive jsval :=
| Undefined
| Null
| Bool (b : bool)
| Num (q : Q)
| NaN
| Str (s : string)
| Obj (p : package).

(** ToBoolean. *)
Definition truthy (v : jsval) : bool :=
  match v with
  | Undefined | Null | NaN => false
  | Bool b => b
  | Num q => negb (Qeq_bool q 0)
  | Str s => negb (String.eqb s EmptyString)
  | Obj _ => true
  end.

(** [a || b]. *)
Definition js_or (a b : jsval) : jsval := if truthy a then a else b.

(** [a && b]. *)
Definition js_and (a b : jsval) : jsval := if truthy a then b else a.

(** [Array.prototype.map] with the (value, index) callback. *)
Fixpoint mapi_from {A B : Type} (f : A -> nat -> B) (k : nat) (l : list A) : list B :=
  match l with
  | [] => []
  | a :: l' => f a k :: mapi_from f (S k) l'
  end.

Definition mapi {A B : Type} (f : A -> nat -> B) (l : list A) : list B :=
  mapi_from f 0 l.

(** [Array.prototype.filter] with a callback returning any value. *)
Definition js_filter (f : jsval -> jsval) (l : list jsval) : list jsval :=
  filter (fun v => truthy (f v)) l.

(** ** The constructor: lines 34-39 and the accessors of lines 190-206 *)

(** The [options] argument; an absent property reads as [Undefined]. *)
Record options := {
  o_width : jsval;
  o_margin : jsval;
  o_padding : jsval;
  onNodeChosed : bool  (* whether a selection callback is registered *)
}.

Definition no_options : options :=
  {| o_width := Undefined; o_margin := Undefined; o_padding := Undefined;
     onNodeChosed := false |}.

(** The variables captured by the [chart] closure. *)
Record chart := {
  width : jsval;
  margin : jsval;
  padding : jsval
}.

Definition default_width : jsval := Num 700.
Definition default_margin : jsval := Num 150.
Definition default_padding : jsval := Num (2 # 100).

(** [d3.chart.dependencyWheel(options)]; [None] is a call without argument
    ([options = options || {}]). *)
Definition dependencyWheel (opts : option options) : chart :=
  let options := match opts with Some o => o | None => no_options end in
  {| width := js_or (o_width options) default_width;
     margin := js_or (o_margin options) default_margin;
     padding := js_or (o_padding options) default_padding |}.

(** [chart.width(value)], [chart.margin(value)], [chart.padding(value)]
    called with an argument. *)
Definition set_width (value : jsval) (c : chart) : chart :=
  {| width := value; margin := margin c; padding := padding c |}.
Definition set_margin (value : jsval) (c : chart) : chart :=
  {| width := width c; margin := value; padding := padding c |}.
Definition set_padding (value : jsval) (c : chart) : chart :=
  {| width := width c; margin := margin c; padding := value |}.

(** ** Layout records (the objects d3's chord layout hands to the chart) *)

(** A subgroup: one end of a chord, cell [(index, subindex)] of the matrix. *)
Record subgroup := {
  index : nat;
  subindex : nat;
  startAngle : Q;
  endAngle : Q;
  value : Z
}.

(** A group: the sector of one node; the chart reads these three fields. *)
Record group := {
  g_index : nat;
  g_startAngle : Q;
  g_endAngle : Q
}.

Record chord := {
  source : subgroup;
  target : subgroup
}.

(** The datum bound to the element an event fires on: a group for
    [g.group], a chord for [path.chord]. *)
Inductive datum :=
| GroupDatum (g : group)
| ChordDatum (c : chord).

(** [i = g.source ? g.source.index : i] (lines 83 and 123). *)
Definition event_index (g : datum) (i : nat) : nat :=
  match g with
  | ChordDatum c => index (source c)
  | GroupDatum _ => i
  end.

(** ** Selection callback: lines 119-139 *)

Record data := {
  matrix : list (list Z);
  packageNames : list string;
  packages : option (list package)
}.

(** Lines 45-51: the names in use once [packages] has been looked at. *)
Definition names_in_use (d : data) : list string :=
  match packages d with
  | Some pkgs => map name pkgs
  | None => packageNames d
  end.

Definition filterTrue (v : jsval) : jsval := v.

Definition name_at (names : list string) (i : nat) : jsval :=
  match nth_error names i with Some s => Str s | None => Undefined end.

Definition package_at (pkgs : list package) (i : nat) : jsval :=
  match nth_error pkgs i with Some p => Obj p | None => Undefined end.

(** [packages ? packages[idx] : packageNames[idx]]. *)
Definition node_at (d : data) (idx : nat) : jsval :=
  match packages d with
  | Some pkgs => package_at pkgs idx
  | None => name_at (names_in_use d) idx
  end.

(** Truth value of a matrix weight [v] in [if ( v )]. *)
Definition weight_truthy (v : Z) : bool := negb (v =? 0)%Z.

(** [arr[idx] != 0]; a read past the end of the row is [undefined], and
    [undefined != 0] holds. *)
Definition neq_zero (arr : list Z) (idx : nat) : bool :=
  match nth_error arr idx with
  | Some v => negb (v =? 0)%Z
  | None => true
  end.

(** Second argument of the callback (lines 127-132). *)
Definition dependencies (d : data) (row : list Z) : list jsval :=
  js_filter filterTrue
    (mapi (fun v idx => if weight_truthy v then node_at d idx else Undefined) row).

(** Third argument of the callback (lines 133-138).  In the inner
    conditional the index given to [packages] is the selected [idx], the
    index given to [packageNames] is the row number [i]. *)
Definition dependents (d : data) (idx : nat) : list jsval :=
  js_filter filterTrue
    (mapi (fun arr i =>
             js_and (Bool (neq_zero arr idx))
                    (match packages d with
                     | Some pkgs => package_at pkgs idx
                     | None => name_at (names_in_use d) i
                     end))
          (matrix d)).

(** The arguments [getChosenNode] passes to [options.onNodeChosed];
    [None] when [matrix[idx]] is [undefined] and [.map] throws. *)
Definition getChosenNode (d : data) (n : datum) (idx : nat)
  : option (jsval * list jsval * list jsval) :=
  let idx := event_index n idx in
  let node := node_at d idx in
  match nth_error (matrix d) idx with
  | Some row => Some (node, dependencies d row, dependents d idx)
  | None => None
  end.

(** Line 122: the click handler is [getChosenNode] when the options carry
    a callback, and [undefined] (no handler) otherwise. *)
Definition click_handler (o : options)
  : option (data -> datum -> nat -> option (jsval * list jsval * list jsval)) :=
  if onNodeChosed o then Some getChosenNode else None.

(** Weight [matrix[i][j]] of a well-formed matrix (0 outside it). *)
Definition weight (m : list (list Z)) (i j : nat) : Z :=
  nth j (nth i m []) 0%Z.

Definition square (m : list (list Z)) : Prop :=
  Forall (fun row => length row = length m) m.

(** The example of the header comment (lines 19-24). *)
Definition example_matrix : list (list Z) :=
  [[0; 1; 1]; [0; 0; 1]; [0; 0; 0]]%Z.

Definition example_data : data :=
  {| matrix := example_matrix;
     packageNames := ["Main"; "A"; "B"]%string;
     packages := None |}.

Definition example_packages : data :=
  {| matrix := example_matrix;
     packageNames := [];
     packages := Some [ {| name := "Main" |}; {| name := "A" |}; {| name := "B" |} ] |}.

Definition a_group (i : nat) : datum :=
  GroupDatum {| g_index := i; g_startAngle := 0; g_endAngle := 0 |}.

(** ** The chord layout of d3 (library routine [d3.layout.chord])

    The chart does not compute the layout itself: lines 56-58 create a d3
    chord layout with the chart's padding and [d3.descending] as subgroup
    order, line 114 gives it the matrix, and lines 141, 145 and 174 read
    [chord.groups()] and [chord.chords()].  The definitions of this section
    follow the [relayout] routine of d3 version 3 (file layout/chord.js of
    the d3 sources); they are the library's algorithm, not code of the
    chart. *)

(** [Math.PI], the exact value of the double. *)
Definition PI : Q := 884279719003555 # 281474976710656.

(** d3's constant tau, [2 * Math.PI]. *)
Definition tau : Q := 2 * PI.

(** [d3.descending] on numbers. *)
Definition descending (a b : Z) : Z :=
  if (b <? a)%Z then (-1)%Z else if (b >? a)%Z then 1%Z else 0%Z.

(** [Array.prototype.sort(compare)]: a stable sort (ECMAScript 2019). *)
Fixpoint insert_by (compare : nat -> nat -> Z) (x : nat) (l : list nat) : list nat :=
  match l with
  | [] => [x]
  | y :: l' =>
      if (compare x y <=? 0)%Z then x :: y :: l' else y :: insert_by compare x l'
  end.

Fixpoint sort_by (compare : nat -> nat -> Z) (l : list nat) : list nat :=
  match l with
  | [] => []
  | x :: l' => insert_by compare x (sort_by compare l')
  end.

(** The variables of the layout closure.  [chords] and [groups] are the
    memoised results, [None] for [null]. *)
Record chord_layout := {
  cl_matrix : list (list Z);
  cl_n : nat;
  cl_padding : Q;
  cl_sortSubgroups : option (Z -> Z -> Z);
  cl_chords : option (list chord);
  cl_groups : option (list group)
}.

(** [d3.layout.chord()]. *)
Definition new_chord_layout : chord_layout :=
  {| cl_matrix := []; cl_n := 0; cl_padding := 0; cl_sortSubgroups := None;
     cl_chords := None; cl_groups := None |}.

(** [chord.padding(x)]. *)
Definition chord_padding (x : Q) (l : chord_layout) : chord_layout :=
  {| cl_matrix := cl_matrix l; cl_n := cl_n l; cl_padding := x;
     cl_sortSubgroups := cl_sortSubgroups l;
     cl_chords := None; cl_groups := None |}.

(** [chord.sortSubgroups(x)]; only the chords are forgotten. *)
Definition chord_sortSubgroups (x : Z -> Z -> Z) (l : chord_layout) : chord_layout :=
  {| cl_matrix := cl_matrix l; cl_n := cl_n l; cl_padding := cl_padding l;
     cl_sortSubgroups := Some x;
     cl_chords := None; cl_groups := cl_groups l |}.

(** [chord.matrix(x)]. *)
Definition chord_matrix (x : list (list Z)) (l : chord_layout) : chord_layout :=
  {| cl_matrix := x; cl_n := length x; cl_padding := cl_padding l;
     cl_sortSubgroups := cl_sortSubgroups l;
     cl_chords := None; cl_groups := None |}.

(** "Compute the sum": [groupSums[i]] and their total [k]. *)
Definition groupSum (m : list (list Z)) (n i : nat) : Z :=
  fold_left (fun x j => (x + weight m i j)%Z) (seq 0 n) 0%Z.

Definition total (m : list (list Z)) (n : nat) : Z :=
  fold_left (fun k i => (k + groupSum m n i)%Z) (seq 0 n) 0%Z.

(** "Sort subgroups": [subgroupIndex[i]]. *)
Definition subgroupIndex (sortSubgroups : option (Z -> Z -> Z))
    (m : list (list Z)) (n i : nat) : list nat :=
  match sortSubgroups with
  | Some cmp => sort_by (fun a b => cmp (weight m i a) (weight m i b)) (seq 0 n)
  | None => seq 0 n
  end.

(** "Convert the sum to scaling factor for [0, 2pi]", in exact
    arithmetic, for a non-zero [total]: with a total of 0 the quotient of
    the code is infinite (and the angles [NaN]), which [Q] cannot express;
    see [Binary64.scale]. *)
Definition scale (padding : Q) (m : list (list Z)) (n : nat) : Q :=
  (tau - padding * inject_Z (Z.of_nat n)) / inject_Z (total m n).

(** Inner loop of "Compute the start and end angle for each group and
    subgroup": the subgroups of group [di] from angle [x] on, and the
    angle reached.  The angles are summed exactly here and with the
    rounding of the code in [Binary64.place_subgroups]. *)
Fixpoint place_subgroups (m : list (list Z)) (k : Q) (di : nat)
    (order : list nat) (x : Q) : list subgroup * Q :=
  match order with
  | [] => ([], x)
  | dj :: rest =>
      let v := weight m di dj in
      let a0 := x in
      let a1 := x + inject_Z v * k in
      let (subs, x') := place_subgroups m k di rest a1 in
      ({| index := di; subindex := dj; startAngle := a0; endAngle := a1;
          value := v |} :: subs, x')
  end.

(** Outer loop: groups in index order (no [sortGroups] is configured). *)
Fixpoint place_groups (sortSubgroups : option (Z -> Z -> Z))
    (m : list (list Z)) (n : nat) (k padding : Q)
    (groupIndex : list nat) (x : Q) : list group * list subgroup :=
  match groupIndex with
  | [] => ([], [])
  | di :: rest =>
      let x0 := x in
      let (subs, x1) :=
        place_subgroups m k di (subgroupIndex sortSubgroups m n di) x in
      let (gs, subs') :=
        place_groups sortSubgroups m n k padding rest (x1 + padding) in
      ({| g_index := di; g_startAngle := x0; g_endAngle := x1 |} :: gs,
       subs ++ subs')
  end.

(** [subgroups[i + "-" + j]]. *)
Definition lookup (subgroups : list subgroup) (i j : nat) : option subgroup :=
  find (fun s => (index s =? i) && (subindex s =? j)) subgroups.

(** Body of "Generate chords for each (non-empty) subgroup-subgroup
    link".  An absent table entry would make [source.value] throw; the
    table built by [place_groups] has every entry. *)
Definition link (subgroups : list subgroup) (i j : nat) : list chord :=
  match lookup subgroups i j, lookup subgroups j i with
  | Some src, Some tgt =>
      if weight_truthy (value src) || weight_truthy (value tgt)
      then [ if (value src <? value tgt)%Z
             then {| source := tgt; target := src |}
             else {| source := src; target := tgt |} ]
      else []
  | _, _ => []
  end.

(** The two nested loops: [i] from 0, [j] from [i]. *)
Definition make_chords (subgroups : list subgroup) (n : nat) : list chord :=
  flat_map (fun i => flat_map (fun j => link subgroups i j) (seq i (n - i)))
           (seq 0 n).

(** [relayout()]: the groups and the chords of the current configuration. *)
Definition relayout (l : chord_layout) : list group * list chord :=
  let m := cl_matrix l in
  let n := cl_n l in
  let k := scale (cl_padding l) m n in
  let (groups, subgroups) :=
    place_groups (cl_sortSubgroups l) m n k (cl_padding l) (seq 0 n) 0 in
  (groups, make_chords subgroups n).

Definition memoise (l : chord_layout) : chord_layout :=
  {| cl_matrix := cl_matrix l; cl_n := cl_n l; cl_padding := cl_padding l;
     cl_sortSubgroups := cl_sortSubgroups l;
     cl_chords := Some (snd (relayout l));
     cl_groups := Some (fst (relayout l)) |}.

(** [chord.chords()]: [if (!chords) relayout(); return chords]. *)
Definition chord_chords (l : chord_layout) : list chord * chord_layout :=
  match cl_chords l with
  | Some cs => (cs, l)
  | None => (snd (relayout l), memoise l)
  end.

(** [chord.groups()]: [if (!groups) relayout(); return groups]. *)
Definition chord_groups (l : chord_layout) : list group * chord_layout :=
  match cl_groups l with
  | Some gs => (gs, l)
  | None => (fst (relayout l), memoise l)
  end.

(** ** Colours: lines 75-78 *)

(** [s.charCodeAt(0)]; [None] is [NaN] (the empty string).  Characters are
    the 8-bit characters of [string]. *)
Definition charCodeAt0 (s : string) : option Z :=
  match s with
  | EmptyString => None
  | String a _ => Some (Z.of_nat (nat_of_ascii a))
  end.

(** [parseInt(((c - 97) / 26) * 360, 10)] for a character code [c]: the
    quotient is 0 or at least 13 in absolute value, so that the number is
    printed without exponent and [parseInt] truncates it towards zero. *)
Definition hue (c : Z) : Z := Z.quot ((c - 97) * 360) 26.

(** Number to string conversion of an integer. *)
Definition decimal (z : Z) : string := NilZero.string_of_int (Z.to_int z).

Definition hsl (h : string) : string := "hsl(" ++ h ++ ",90%,70%)".

(** [fill(d)], on the index of [d]; [None] when [packageNames[d.index]] is
    [undefined] and [.charCodeAt] throws. *)
Definition fill (names : list string) (d_index : nat) : option string :=
  if d_index =? 0 then Some "#ccc"%string
  else match nth_error names d_index with
       | None => None
       | Some s =>
           Some (hsl (match charCodeAt0 s with
                      | Some c => decimal (hue c)
                      | None => "NaN"%string
                      end))
       end.

(** Line 178: a chord is filled with [fill(d.source)]. *)
Definition chord_fill (names : list string) (d : chord) : option string :=
  fill names (index (source d)).

(** ** The rendered wheel: lines 141-186 *)

(** An element of a d3 selection: its bound datum and its opacity style. *)
Record element (D : Type) := {
  bound : D;
  opacity : Q
}.

(** [node_label] (the [g.group] elements), [chords] (the [path.chord]
    elements) and the angle of the [rotate] transform put on both. *)
Record wheel := {
  node_label : list (element group);
  chords : list (element chord);
  rotate : Q
}.

(** Line 142, in exact arithmetic; [Binary64.rotation] is its value in
    doubles. *)
Definition rotation (rootGroup : group) : Q :=
  - (g_endAngle rootGroup - g_startAngle rootGroup) / 2 * (180 / PI).

(** The padding handed to d3 must be a number for the model to follow it. *)
Definition number_of (v : jsval) : option Q :=
  match v with Num q => Some q | _ => None end.

(** Lines 56-58 and 114. *)
Definition configure (padding : Q) (m : list (list Z)) : chord_layout :=
  chord_matrix m
    (chord_sortSubgroups descending (chord_padding padding new_chord_layout)).

(** A new element.  Chords are created with opacity 1 (line 183); labels
    are given no opacity style, which displays as 1. *)
Definition shown {D : Type} (d : D) : element D := {| bound := d; opacity := 1 |}.

(** Whether a style callback returned (did not throw). *)
Definition returns {A : Type} (r : option A) : bool :=
  match r with Some _ => true | None => false end.

(** [chart(selection)] on a container without [svg]: the elements created.
    [None] when the chart throws: at line 142 when [chord.groups()[0]] is
    [undefined] (empty matrix), at lines 164-165 when [fill] throws for a
    group, at lines 177-178 when it throws for the source of a chord. *)
Definition render (c : chart) (d : data) : option wheel :=
  match number_of (padding c) with
  | None => None
  | Some p =>
      let chord := configure p (matrix d) in
      let (groups0, chord) := chord_groups chord in
      match nth_error groups0 0 with
      | None => None
      | Some rootGroup =>
          let (groups, chord) := chord_groups chord in
          if forallb (fun g => returns (fill (names_in_use d) (g_index g))) groups
          then
            let (cs, chord) := chord_chords chord in
            if forallb (fun c => returns (chord_fill (names_in_use d) c)) cs
            then Some {| node_label := map shown groups;
                         chords := map shown cs;
                         rotate := rotation rootGroup |}
            else None
          else None
      end
  end.

(** ** Fading: lines 81-117 *)

(** The loop of lines 104-107: [true] when [d_index] is not in [groups]. *)
Fixpoint not_listed (groups : list nat) (d_index : nat) : bool :=
  match groups with
  | [] => true
  | g :: rest => if g =? d_index then false else not_listed rest d_index
  end.

(** Lines 90-100: the array [groups]. *)
Definition related_groups (cs : list chord) (i : nat) : list nat :=
  flat_map (fun d =>
              (if index (source d) =? i then [index (target d)] else [])
              ++ (if index (target d) =? i then [index (source d)] else []))
           cs
  ++ [i].

(** Line 86: the chords that are restyled. *)
Definition unrelated_chord (i : nat) (d : chord) : bool :=
  negb (index (source d) =? i) && negb (index (target d) =? i).

Definition restyle {D : Type} (selected : D -> bool) (o : Q)
    (e : element D) : element D :=
  if selected (bound e) then {| bound := bound e; opacity := o |} else e.

(** [fade(opacity)(g, i)]; the transition is taken at its end. *)
Definition fade (o : Q) (g : datum) (i : nat) (w : wheel) : wheel :=
  let i := event_index g i in
  let groups := related_groups (map (@bound chord) (chords w)) i in
  {| node_label :=
       map (restyle (fun d => not_listed groups (g_index d)) o) (node_label w);
     chords := map (restyle (unrelated_chord i) o) (chords w);
     rotate := rotate w |}.

Definition fadeOut : datum -> nat -> wheel -> wheel := fade (1 # 10).
Definition fadeIn : datum -> nat -> wheel -> wheel := fade 1.

(** Every chord and every label at opacity 1. *)
Definition neutral (w : wheel) : Prop :=
  Forall (fun e => opacity e = 1) (node_label w)
  /\ Forall (fun e => opacity e = 1) (chords w).

(** The elements left at full opacity. *)
Definition highlighted {D : Type} (l : list (element D)) : list D :=
  map (@bound D) (filter (fun e => Qeq_bool (opacity e) 1) l).

(** ** The angles in doubles

    The same placement loops with the arithmetic of the code: IEEE 754
    binary64, every operation rounded to nearest.  Only the angles of the
    groups are followed; the subgroup order is the one of the exact
    version (it is decided by the integer weights). *)

Module Binary64.

Local Open Scope float_scope.

(** [Math.PI]. *)
Definition PI : float := 0x1.921fb54442d18p+1.

Definition tau : float := 2 * PI.

(** The double of an integer (exact up to 2^53 in absolute value). *)
Fixpoint of_positive (p : positive) : float :=
  match p with
  | xH => 1
  | xO q => 2 * of_positive q
  | xI q => 2 * of_positive q + 1
  end.

Definition of_Z (z : Z) : float :=
  match z with
  | Z0 => 0
  | Zpos p => of_positive p
  | Zneg p => - of_positive p
  end.

Record group := {
  index : nat;
  startAngle : float;
  endAngle : float
}.

(** [k = (tau - padding * n) / k]; a total of 0 gives an infinite [k]. *)
Definition scale (padding : float) (m : list (list Z)) (n : nat) : float :=
  (tau - padding * of_Z (Z.of_nat n)) / of_Z (total m n).

(** The inner loop, [x += v * k] for the subgroups of [di] in their
    order: the angle reached. *)
Fixpoint place_subgroups (m : list (list Z)) (k : float) (di : nat)
    (order : list nat) (x : float) : float :=
  match order with
  | [] => x
  | dj :: rest => place_subgroups m k di rest (x + of_Z (weight m di dj) * k)
  end.

(** The outer loop. *)
Fixpoint place_groups (m : list (list Z)) (n : nat) (k padding : float)
    (groupIndex : list nat) (x : float) : list group :=
  match groupIndex with
  | [] => []
  | di :: rest =>
      let x0 := x in
      let x1 :=
        place_subgroups m k di (subgroupIndex (Some descending) m n di) x in
      {| index := di; startAngle := x0; endAngle := x1 |}
      :: place_groups m n k padding rest (x1 + padding)
  end.

(** [chord.groups()] of the layout the chart configures. *)
Definition groups (padding : float) (m : list (list Z)) : list group :=
  let n := length m in
  place_groups m n (scale padding m n) padding (seq 0 n) 0.

(** Line 142. *)
Definition rotation (rootGroup : group) : float :=
  - (endAngle rootGroup - startAngle rootGroup) / 2 * (180 / PI).



(** Lines 141-142: the angle of the [rotate] transform; [None] when
    [chord.groups()[0]] is [undefined]. *)
Definition rotate (padding : float) (m : list (list Z)) : option float :=
  match nth_error (groups padding m) 0 with
  | Some rootGroup => Some (rotation rootGroup)
  | None => None
  end.

(** The default padding, the double written [0.02]. *)
Definition default_padding : float := 0x1.47ae147ae147bp-6.

End Binary64.

(** ** Sample inputs *)

(** A matrix whose first node depends on itself. *)
Definition self_data : data :=
  {| matrix := [[1; 1]; [0; 0]]%Z;
     packageNames := ["Main"; "A"]%string;
     packages := None |}.

Definition zero_options : options :=
  {| o_width := Num 0; o_margin := Num 0; o_padding := Num 0;
     onNodeChosed := false |}.

Definition a_subgroup (i j : nat) (v : Z) : subgroup :=
  {| index := i; subindex := j; startAngle := 0; endAngle := 0; value := v |}.

Definition a_label (i : nat) : element group :=
  shown {| g_index := i; g_startAngle := 0; g_endAngle := 0 |}.

(** Three nodes, one chord between nodes 1 and 2, everything shown. *)
Definition small_wheel : wheel :=
  {| node_label := [a_label 0; a_label 1; a_label 2];
     chords := [shown {| source := a_subgroup 1 2 1; target := a_subgroup 2 1 0 |}];
     rotate := 0 |}.

(** Data with one entry per matrix row: a package when [packages] is
    given, else a non-empty name. *)
Definition labelled (d : data) : Prop :=
  match packages d with
  | Some pkgs => length pkgs = length (matrix d)
  | None =>
      length (packageNames d) = length (matrix d)
      /\ Forall (fun s => s <> EmptyString) (packageNames d)
  end.

(** Columns (or rows) [j < n] selected by [w]. *)
Definition indices_where (w : nat -> bool) (n : nat) : list nat :=
  filter w (seq 0 n).

Definition nonzero (v : Z) : bool := negb (v =? 0)%Z.

(** The node indices a chord goes from and to. *)
Definition ends (c : chord) : nat * nat :=
  (index (source c), index (target c)).

(** [p] joins nodes [a] and [b], in either direction. *)
Definition joins (a b : nat) (p : nat * nat) : bool :=
  ((fst p =? a) && (snd p =? b)) || ((fst p =? b) && (snd p =? a)).

(** The ends of the chord that cell pair [(i, j)], [(j, i)] gives rise to:
    none when both weights are zero, else from the heavier cell (from
    [(i, j)] on a tie). *)
Definition link_ends (m : list (list Z)) (i j : nat) : list (nat * nat) :=
  if nonzero (weight m i j) || nonzero (weight m j i)
  then [ if (weight m i j <? weight m j i)%Z then (j, i) else (i, j) ]
  else [].

Definition chord_ends (m : list (list Z)) (n : nat) : list (nat * nat) :=
  flat_map (fun i => flat_map (fun j => link_ends m i j) (seq i (n - i)))
           (seq 0 n).

Definition nonnegative (m : list (list Z)) : Prop :=
  Forall (Forall (fun v => (0 <= v)%Z)) m.

(** A matrix that is not symmetric: 0 -> 1 weighs 1, 1 -> 0 weighs 2. *)
Definition asymmetric_matrix : list (list Z) := [[0; 1]; [2; 0]]%Z.



(** ** Labels: line 161 *)

(** The text of a label. *)
Definition label_text (d : data) (g : group) : jsval :=
  name_at (names_in_use d) (g_index g).

(** More sample inputs. *)

(** A matrix whose second row is too short to have a column 1. *)
Definition ragged_data : data :=
  {| matrix := [[0; 0]; [0]]%Z;
     packageNames := ["Main"; "A"]%string;
     packages := None |}.

Definition example_names : list string := ["Main"; "alpha"; "beta"]%string.

(** * Properties *)

Local Open Scope nat_scope.
Unset Implicit Arguments.

(** ** Arrays *)

Lemma js_and_Bool (b : bool) (v : jsval) :
  js_and (Bool b) v = if b then v else Bool false.
Proof. destruct b; reflexivity. Qed.

Lemma js_filter_truthy (l : list jsval) :
  Forall (fun v => truthy v = true) (js_filter filterTrue l).
Proof.
  apply Forall_forall. intros v Hv.
  apply filter_In in Hv. exact (proj2 Hv).
Qed.

Lemma js_filter_mapi_from {A : Type} (c : A -> bool) (g : nat -> jsval)
    (z : jsval) (w : nat -> bool) :
  truthy z = false ->
  forall (l : list A) (k : nat),
    (forall j a, nth_error l j = Some a -> c a = w (k + j)) ->
    (forall j, j < length l -> w (k + j) = true -> truthy (g (k + j)) = true) ->
    js_filter filterTrue (mapi_from (fun a i => if c a then g i else z) k l)
    = map g (filter w (seq k (length l))).
Proof.
  intros Hz l. induction l as [| a l IH]; intros k Hc Hg; [reflexivity|].
  assert (IH' : js_filter filterTrue
                  (mapi_from (fun a i => if c a then g i else z) (S k) l)
                = map g (filter w (seq (S k) (length l)))).
  { apply IH.
    - intros j b Hj. replace (S k + j) with (k + S j) by lia.
      apply Hc. exact Hj.
    - intros j Hj. replace (S k + j) with (k + S j) by lia.
      apply Hg. simpl. lia. }
  assert (Ha : c a = w k).
  { rewrite (Hc 0 a eq_refl). f_equal. lia. }
  simpl. unfold js_filter in IH'. unfold js_filter, filterTrue at 1. simpl.
  rewrite <- Ha. destruct (c a) eqn:Eca.
  - assert (Ht : truthy (g k) = true).
    { specialize (Hg 0). replace (k + 0) with k in Hg by lia.
      apply Hg; [simpl; lia | congruence]. }
    rewrite Ht. simpl. f_equal. exact IH'.
  - rewrite Hz. exact IH'.
Qed.

Lemma weight_nth_error {m : list (list Z)} {i j : nat} {row : list Z} {v : Z} :
  nth_error m i = Some row -> nth_error row j = Some v -> weight m i j = v.
Proof.
  intros Hr Hv. unfold weight.
  rewrite (nth_error_nth m i [] Hr). apply nth_error_nth. exact Hv.
Qed.

Lemma square_row {m : list (list Z)} {i : nat} {row : list Z} :
  square m -> nth_error m i = Some row -> length row = length m.
Proof.
  intros Hs Hr. unfold square in Hs. rewrite Forall_forall in Hs.
  apply Hs. eapply nth_error_In; eauto.
Qed.

Lemma name_at_truthy (names : list string) (j : nat) :
  Forall (fun s => s <> EmptyString) names -> j < length names ->
  truthy (name_at names j) = true.
Proof.
  intros Hne Hj. unfold name_at.
  destruct (nth_error names j) as [s|] eqn:E.
  - simpl. rewrite Forall_forall in Hne.
    assert (Hs : s <> EmptyString) by (apply Hne; eapply nth_error_In; eauto).
    destruct (String.eqb_spec s EmptyString); [contradiction | reflexivity].
  - apply nth_error_None in E. lia.
Qed.

Lemma node_at_truthy (d : data) (j : nat) :
  labelled d -> j < length (matrix d) -> truthy (node_at d j) = true.
Proof.
  unfold labelled, node_at, names_in_use. intros Hl Hj.
  destruct (packages d) as [pkgs|].
  - unfold package_at. destruct (nth_error pkgs j) eqn:E; [reflexivity|].
    apply nth_error_None in E. lia.
  - destruct Hl as [Hlen Hne]. apply name_at_truthy; [exact Hne | lia].
Qed.

(** The dependency list of row [i]. *)
Lemma dependencies_labelled (d : data) (i : nat) (row : list Z) :
  square (matrix d) -> labelled d -> nth_error (matrix d) i = Some row ->
  dependencies d row
  = map (node_at d)
        (indices_where (fun j => nonzero (weight (matrix d) i j))
                       (length (matrix d))).
Proof.
  intros Hs Hl Hr.
  unfold dependencies, mapi, indices_where.
  rewrite <- (square_row Hs Hr).
  apply js_filter_mapi_from; [reflexivity | |].
  - intros j v Hv. simpl. rewrite (weight_nth_error Hr Hv). reflexivity.
  - intros j Hj _. simpl. apply node_at_truthy; [exact Hl|].
    rewrite <- (square_row Hs Hr). exact Hj.
Qed.

(** The dependent list of column [i], for names. *)
Lemma dependents_named (d : data) (i : nat) :
  square (matrix d) -> labelled d -> packages d = None ->
  i < length (matrix d) ->
  dependents d i
  = map (node_at d)
        (indices_where (fun j => nonzero (weight (matrix d) j i))
                       (length (matrix d))).
Proof.
  intros Hs Hl Hp Hi.
  unfold dependents, mapi, indices_where. rewrite Hp.
  assert (E : forall (l : list (list Z)) k,
             mapi_from (fun arr i0 => js_and (Bool (neq_zero arr i))
                                         (name_at (names_in_use d) i0)) k l
             = mapi_from (fun arr i0 => if neq_zero arr i
                                        then node_at d i0 else Bool false) k l).
  { induction l as [| a l IH]; intro k; [reflexivity|].
    simpl. rewrite js_and_Bool, IH. unfold node_at. rewrite Hp. reflexivity. }
  rewrite E.
  apply js_filter_mapi_from; [reflexivity | |].
  - intros j arr Harr. simpl. unfold neq_zero.
    destruct (nth_error arr i) as [v|] eqn:Ev.
    + rewrite (weight_nth_error Harr Ev). reflexivity.
    + apply nth_error_None in Ev. rewrite (square_row Hs Harr) in Ev. lia.
  - intros j Hj _. simpl. apply node_at_truthy; [exact Hl | exact Hj].
Qed.

(** With [packages], every entry of the dependent list is [packages[idx]]. *)
Lemma dependents_packages (d : data) (pkgs : list package) (idx : nat) :
  packages d = Some pkgs ->
  Forall (fun v => v = package_at pkgs idx) (dependents d idx).
Proof.
  intro Hp. unfold dependents, mapi. rewrite Hp.
  generalize 0 as k. induction (matrix d) as [| arr l IH]; intro k.
  - constructor.
  - simpl. rewrite js_and_Bool. unfold js_filter in *. simpl.
    destruct (neq_zero arr idx).
    + unfold filterTrue at 1.
      destruct (truthy (package_at pkgs idx)); [constructor; [reflexivity|] |]; apply IH.
    + simpl. apply IH.
Qed.

Lemma indices_where_In (w : nat -> bool) (n j : nat) :
  In j (indices_where w n) <-> j < n /\ w j = true.
Proof.
  unfold indices_where. rewrite filter_In, in_seq. intuition lia.
Qed.

Lemma nonzero_true (v : Z) : nonzero v = true <-> v <> 0%Z.
Proof.
  unfold nonzero. destruct (Z.eqb_spec v 0); simpl; intuition congruence.
Qed.

(** ** Selection callback *)

(** The example of the header comment, in name-only mode. *)
Example select_Main :
  getChosenNode example_data (a_group 0) 0
  = Some (Str "Main", [Str "A"; Str "B"], []).
Proof. reflexivity. Qed.

Example select_B :
  getChosenNode example_data (a_group 2) 2
  = Some (Str "B", [], [Str "Main"; Str "A"]).
Proof. reflexivity. Qed.

(** C1.  With a [packages] array the dependent list does not hold the
    dependents: selecting "B" in the example of the header comment, whose
    dependents are "Main" and "A", passes the selected package "B" twice. *)
Theorem dependents_with_packages_repeat_selected :
  getChosenNode example_packages (a_group 2) 2
  = Some (Obj {| name := "B" |}, [],
          [Obj {| name := "B" |}; Obj {| name := "B" |}])
  /\ indices_where (fun j => nonzero (weight example_matrix j 2)) 3 = [0; 1]
  /\ map (node_at example_packages) [0; 1]
     = [Obj {| name := "Main" |}; Obj {| name := "A" |}].
Proof. repeat split. Qed.

(** C4, as stated, fails: with [matrix[0][0] = 1] the selected node
    "Main" is in its own dependency list and in its own dependent list. *)
Lemma self_listed_when_diagonal_nonzero :
  weight (matrix self_data) 0 0 <> 0%Z
  /\ getChosenNode self_data (a_group 0) 0
     = Some (Str "Main", [Str "Main"; Str "A"], [Str "Main"])
  /\ In (node_at self_data 0) [Str "Main"; Str "A"]
  /\ In (node_at self_data 0) [Str "Main"].
Proof.
  split; [discriminate|]. split; [reflexivity|]. split; left; reflexivity.
Qed.

(** C4 (amended).  For a square matrix with one label per row and a
    selected index [i] inside it, the callback is invoked, no entry of
    either list is falsy, the dependency list holds exactly the nodes [j]
    with [matrix[i][j]] non-zero and, in name-only mode, the dependent list
    exactly the nodes [j] with [matrix[j][i]] non-zero; the selected node
    itself is listed exactly when [matrix[i][i]] is non-zero. *)
Theorem chosen_lists_keep_nonzero_weights (d : data) (g : datum) (i0 : nat) :
  square (matrix d) -> labelled d -> event_index g i0 < length (matrix d) ->
  let i := event_index g i0 in
  let m := matrix d in
  let deps := indices_where (fun j => nonzero (weight m i j)) (length m) in
  let reqs := indices_where (fun j => nonzero (weight m j i)) (length m) in
  getChosenNode d g i0
  = Some (node_at d i, map (node_at d) deps, dependents d i)
  /\ (packages d = None -> dependents d i = map (node_at d) reqs)
  /\ Forall (fun v => truthy v = true) (map (node_at d) deps)
  /\ Forall (fun v => truthy v = true) (dependents d i)
  /\ (forall j, In j deps <-> j < length m /\ weight m i j <> 0%Z)
  /\ (forall j, In j reqs <-> j < length m /\ weight m j i <> 0%Z)
  /\ (In i deps <-> weight m i i <> 0%Z)
  /\ (In i reqs <-> weight m i i <> 0%Z).
Proof.
  intros Hs Hl Hi i m deps reqs.
  destruct (nth_error (matrix d) i) as [row|] eqn:Hr;
    [| apply nth_error_None in Hr; unfold i in Hr; lia].
  assert (Hdeps : dependencies d row = map (node_at d) deps)
    by (apply dependencies_labelled; assumption).
  assert (Hin : forall a b j,
             In j (indices_where (fun j => nonzero (weight m (a j) (b j)))
                                 (length m))
             <-> j < length m /\ weight m (a j) (b j) <> 0%Z).
  { intros a b j. rewrite indices_where_In, nonzero_true. reflexivity. }
  split; [| split; [| split; [| split; [| split; [| split; [| split]]]]]].
  - unfold getChosenNode. fold i. rewrite Hr, Hdeps. reflexivity.
  - intro Hp. apply dependents_named; assumption.
  - rewrite <- Hdeps. apply js_filter_truthy.
  - apply js_filter_truthy.
  - intro j. apply (Hin (fun _ => i) (fun j => j)).
  - intro j. apply (Hin (fun j => j) (fun _ => i)).
  - unfold deps. rewrite (Hin (fun _ => i) (fun j => j)). unfold i in *. tauto.
  - unfold reqs. rewrite (Hin (fun j => j) (fun _ => i)). unfold i in *. tauto.
Qed.

Lemma chosen_lists_keep_nonzero_weights_witness :
  getChosenNode self_data (a_group 0) 0
  = Some (Str "Main", [Str "Main"; Str "A"], [Str "Main"])
  /\ (In 0 (indices_where (fun j => nonzero (weight (matrix self_data) 0 j)) 2)
      <-> weight (matrix self_data) 0 0 <> 0%Z).
Proof.
  assert (Hs : square (matrix self_data)) by (repeat constructor).
  assert (Hl : labelled self_data)
    by (split; [reflexivity | repeat constructor; discriminate]).
  assert (Hi : event_index (a_group 0) 0 < length (matrix self_data))
    by (simpl; lia).
  destruct (chosen_lists_keep_nonzero_weights self_data (a_group 0) 0 Hs Hl Hi)
    as (H1 & _ & _ & _ & _ & _ & H7 & _).
  split; [exact H1 | exact H7].
Defined.

(** ** Constructor options *)

(** C10.  A falsy [width], [margin] or [padding] in the options object is
    replaced by the default 700, 150 or 0.02; whatever the options, the
    constructor never yields the number 0 as padding or as width. *)
Theorem falsy_options_take_defaults (o : options) :
  (truthy (o_width o) = false -> width (dependencyWheel (Some o)) = Num 700)
  /\ (truthy (o_margin o) = false -> margin (dependencyWheel (Some o)) = Num 150)
  /\ (truthy (o_padding o) = false
      -> padding (dependencyWheel (Some o)) = Num (2 # 100))
  /\ (forall q, padding (dependencyWheel (Some o)) = Num q -> ~ (q == 0)%Q)
  /\ (forall q, width (dependencyWheel (Some o)) = Num q -> ~ (q == 0)%Q).
Proof.
  assert (Hnz : forall v d q, truthy d = true -> js_or v d = Num q -> ~ (q == 0)%Q).
  { intros v d q Hd E Hq. unfold js_or in E.
    assert (Ht : truthy (Num q) = true)
      by (destruct (truthy v) eqn:Ev; congruence).
    simpl in Ht. apply Qeq_bool_iff in Hq. rewrite Hq in Ht. discriminate. }
  unfold dependencyWheel; simpl.
  split; [| split; [| split; [| split]]].
  - intro H. unfold js_or. rewrite H. reflexivity.
  - intro H. unfold js_or. rewrite H. reflexivity.
  - intro H. unfold js_or. rewrite H. reflexivity.
  - intros q. apply Hnz. reflexivity.
  - intros q. apply Hnz. reflexivity.
Qed.

Lemma falsy_options_take_defaults_witness :
  width (dependencyWheel (Some zero_options)) = Num 700
  /\ margin (dependencyWheel (Some zero_options)) = Num 150
  /\ padding (dependencyWheel (Some zero_options)) = Num (2 # 100).
Proof.
  destruct (falsy_options_take_defaults zero_options) as (Hw & Hm & Hp & _).
  split; [apply Hw; reflexivity | split; [apply Hm | apply Hp]; reflexivity].
Defined.

(** ** Fading *)

Lemma bound_restyle {D : Type} (sel : D -> bool) (o : Q) (e : element D) :
  bound (restyle sel o e) = bound e.
Proof. unfold restyle. destruct (sel (bound e)); reflexivity. Qed.

Lemma map_bound_restyle {D : Type} (sel : D -> bool) (o : Q) (l : list (element D)) :
  map (@bound D) (map (restyle sel o) l) = map (@bound D) l.
Proof.
  rewrite map_map. apply map_ext. intro e. apply bound_restyle.
Qed.

Lemma restyle_back {D : Type} (sel : D -> bool) (o : Q) (l : list (element D)) :
  Forall (fun e => opacity e = 1%Q) l ->
  map (restyle sel 1%Q) (map (restyle sel o) l) = l.
Proof.
  intro H. induction H as [| e l He _ IH]; [reflexivity|].
  simpl. rewrite IH. f_equal.
  unfold restyle at 2. destruct (sel (bound e)) eqn:E; unfold restyle; simpl;
    rewrite E; destruct e; simpl in *; congruence.
Qed.

Lemma restyle_all_shown {D : Type} (sel : D -> bool) (l : list (element D)) :
  Forall (fun e => opacity e = 1%Q) (map (restyle sel 1%Q) l)
  <-> (forall e, In e l -> sel (bound e) = false -> opacity e = 1%Q).
Proof.
  rewrite Forall_forall. split.
  - intros H e He Hsel.
    specialize (H (restyle sel 1%Q e) (in_map _ _ _ He)).
    unfold restyle in H. rewrite Hsel in H. exact H.
  - intros H e' He'. apply in_map_iff in He'. destruct He' as (e & <- & He).
    unfold restyle. destruct (sel (bound e)) eqn:E; [reflexivity | auto].
Qed.

(** C6, as stated, fails: after [fadeOut] on node 0, a [fadeIn] invoked
    with index 1 leaves the label of node 1 (and of node 2, and the chord
    between them) dimmed. *)
Lemma fadeIn_other_index_leaves_dimmed :
  neutral small_wheel
  /\ ~ neutral (fadeIn (a_group 1) 1 (fadeOut (a_group 0) 0 small_wheel)).
Proof.
  split.
  - split; repeat constructor.
  - intros [Hl _]. inversion Hl as [| e l He1 Hl1]; subst.
    inversion Hl1 as [| e2 l2 He2 _]; subst.
    vm_compute in He2. discriminate.
Qed.

(** C6 (amended).  From the neutral state, [fadeOut] followed by [fadeIn]
    with the same event leaves every chord and every label at opacity 1
    (the wheel is as before); [fadeIn] itself sets opacity 1 only on the
    elements unrelated to its index, so it yields the neutral state exactly
    when the related elements were at opacity 1 already. *)
Theorem fadeIn_undoes_fadeOut (w : wheel) (g : datum) (i : nat) :
  (neutral w -> fadeIn g i (fadeOut g i w) = w
                /\ neutral (fadeIn g i (fadeOut g i w)))
  /\ (neutral (fadeIn g i w)
      <-> (forall e, In e (node_label w) ->
             not_listed (related_groups (map (@bound chord) (chords w))
                                        (event_index g i))
                        (g_index (bound e)) = false ->
             opacity e = 1%Q)
          /\ (forall e, In e (chords w) ->
                unrelated_chord (event_index g i) (bound e) = false ->
                opacity e = 1%Q)).
Proof.
  split.
  - intros [Hl Hc].
    assert (E : fadeIn g i (fadeOut g i w) = w).
    { unfold fadeIn, fadeOut, fade. cbn [chords node_label rotate].
      rewrite map_bound_restyle.
      rewrite (restyle_back _ _ _ Hl), (restyle_back _ _ _ Hc).
      destruct w; reflexivity. }
    split; [exact E | rewrite E; split; assumption].
  - unfold neutral, fadeIn, fade. cbn [chords node_label rotate].
    rewrite !restyle_all_shown. reflexivity.
Qed.

Lemma fadeIn_undoes_fadeOut_witness :
  fadeIn (a_group 1) 1 (fadeOut (a_group 1) 1 small_wheel) = small_wheel.
Proof.
  apply (fadeIn_undoes_fadeOut small_wheel (a_group 1) 1).
  split; repeat constructor.
Defined.

(** ** Chord layout: the table of subgroups *)

Lemma insert_by_In (cmp : nat -> nat -> Z) (x : nat) (l : list nat) (y : nat) :
  In y (insert_by cmp x l) <-> y = x \/ In y l.
Proof.
  induction l as [| z l IH]; simpl.
  - intuition.
  - destruct (cmp x z <=? 0)%Z; simpl; [intuition | rewrite IH; intuition].
Qed.

Lemma sort_by_In (cmp : nat -> nat -> Z) (l : list nat) (y : nat) :
  In y (sort_by cmp l) <-> In y l.
Proof.
  induction l as [| x l IH]; simpl; [reflexivity|].
  rewrite insert_by_In, IH. intuition.
Qed.

Lemma subgroupIndex_In (ss : option (Z -> Z -> Z)) (m : list (list Z)) (n i j : nat) :
  In j (subgroupIndex ss m n i) <-> j < n.
Proof.
  unfold subgroupIndex. destruct ss; [rewrite sort_by_In|]; rewrite in_seq; lia.
Qed.

Section Table.

(** One run of the two placement loops: subgroup order [ss], matrix [m]
    of [n] rows, scale factor [k] and padding [p]. *)
Variable ss : option (Z -> Z -> Z).
Variable m : list (list Z).
Variable n : nat.
Variables k p : Q.

Let step (di dj : nat) (x : Q) : Q := (x + inject_Z (weight m di dj) * k)%Q.

Lemma place_subgroups_sound (di : nat) (order : list nat) (x : Q) (s : subgroup) :
  In s (fst (place_subgroups m k di order x)) ->
  index s = di /\ In (subindex s) order /\ value s = weight m di (subindex s).
Proof.
  revert x. induction order as [| dj rest IH]; intros x; simpl; [tauto|].
  fold (step di dj x).
  destruct (place_subgroups m k di rest (step di dj x)) as [subs x'] eqn:E.
  simpl. intros [<- | Hs]; simpl; [auto|].
  specialize (IH (step di dj x)).
  rewrite E in IH. destruct (IH Hs) as (H1 & H2 & H3). auto.
Qed.

Lemma place_subgroups_complete (di : nat) (order : list nat) (x : Q) (dj : nat) :
  In dj order ->
  exists s, In s (fst (place_subgroups m k di order x))
            /\ index s = di /\ subindex s = dj.
Proof.
  revert x. induction order as [| d rest IH]; intros x; simpl; [tauto|].
  fold (step di d x).
  destruct (place_subgroups m k di rest (step di d x)) as [subs x'] eqn:E.
  intros [-> | Hin].
  - eexists. split; [left; reflexivity | split; reflexivity].
  - destruct (IH (step di d x) Hin) as (s & Hs & H1 & H2).
    rewrite E in Hs. exists s. simpl. auto.
Qed.

Lemma place_groups_sound (gi : list nat) (x : Q) (s : subgroup) :
  In s (snd (place_groups ss m n k p gi x)) ->
  In (index s) gi /\ subindex s < n
  /\ value s = weight m (index s) (subindex s).
Proof.
  revert x. induction gi as [| di rest IH]; intros x; simpl; [tauto|].
  destruct (place_subgroups m k di (subgroupIndex ss m n di) x)
    as [subs x1] eqn:E1.
  destruct (place_groups ss m n k p rest (x1 + p)%Q) as [gs subs'] eqn:E2.
  simpl. intro Hs. apply in_app_or in Hs. destruct Hs as [Hs | Hs].
  - assert (H := place_subgroups_sound di (subgroupIndex ss m n di) x s).
    rewrite E1 in H. destruct (H Hs) as (H1 & H2 & H3).
    apply subgroupIndex_In in H2. subst di. auto.
  - specialize (IH (x1 + p)%Q). rewrite E2 in IH.
    destruct (IH Hs) as (H1 & H2 & H3). auto.
Qed.

Lemma place_groups_complete (gi : list nat) (x : Q) (di dj : nat) :
  In di gi -> dj < n ->
  exists s, In s (snd (place_groups ss m n k p gi x))
            /\ index s = di /\ subindex s = dj.
Proof.
  revert x. induction gi as [| d rest IH]; intros x; simpl; [tauto|].
  destruct (place_subgroups m k d (subgroupIndex ss m n d) x)
    as [subs x1] eqn:E1.
  destruct (place_groups ss m n k p rest (x1 + p)%Q) as [gs subs'] eqn:E2.
  simpl. intros [-> | Hin] Hj.
  - destruct (place_subgroups_complete di (subgroupIndex ss m n di) x dj)
      as (s & Hs & H1 & H2); [apply subgroupIndex_In; exact Hj|].
    rewrite E1 in Hs. exists s. split; [apply in_or_app; left; exact Hs | auto].
  - destruct (IH (x1 + p)%Q Hin Hj) as (s & Hs & H1 & H2).
    rewrite E2 in Hs. exists s. split; [apply in_or_app; right; exact Hs | auto].
Qed.

Lemma place_groups_indices (gi : list nat) (x : Q) :
  map g_index (fst (place_groups ss m n k p gi x)) = gi.
Proof.
  revert x. induction gi as [| di rest IH]; intros x; simpl; [reflexivity|].
  destruct (place_subgroups m k di (subgroupIndex ss m n di) x) as [subs x1].
  specialize (IH (x1 + p)%Q).
  destruct (place_groups ss m n k p rest (x1 + p)%Q) as [gs subs'].
  simpl in *. rewrite IH. reflexivity.
Qed.

(** The table the chord loop reads. *)
Let table : list subgroup := snd (place_groups ss m n k p (seq 0 n) 0%Q).

(** Every cell of the matrix has its entry in the table. *)
Lemma lookup_table (i j : nat) :
  i < n -> j < n ->
  exists s, lookup table i j = Some s
            /\ index s = i /\ subindex s = j /\ value s = weight m i j.
Proof.
  intros Hi Hj. unfold lookup.
  destruct (find _ _) as [s|] eqn:E.
  - apply find_some in E. destruct E as [Hin Hk].
    apply andb_true_iff in Hk. destruct Hk as [H1 H2].
    apply Nat.eqb_eq in H1. apply Nat.eqb_eq in H2.
    destruct (place_groups_sound _ _ _ Hin) as (_ & _ & Hv).
    exists s. rewrite Hv, H1, H2. auto.
  - destruct (place_groups_complete (seq 0 n) 0%Q i j)
      as (s & Hin & H1 & H2); [apply in_seq; lia | exact Hj |].
    apply (find_none _ _ E) in Hin. rewrite H1, H2, !Nat.eqb_refl in Hin.
    discriminate.
Qed.

Lemma link_ends_of_table (i j : nat) :
  i < n -> j < n -> map ends (link table i j) = link_ends m i j.
Proof.
  intros Hi Hj. unfold link, link_ends.
  destruct (lookup_table i j Hi Hj) as (s & -> & Hs1 & Hs2 & Hs3).
  destruct (lookup_table j i Hj Hi) as (t & -> & Ht1 & Ht2 & Ht3).
  rewrite Hs3, Ht3. unfold weight_truthy.
  fold (nonzero (weight m i j)). fold (nonzero (weight m j i)).
  destruct (nonzero (weight m i j) || nonzero (weight m j i)); [| reflexivity].
  destruct (weight m i j <? weight m j i)%Z; unfold ends; simpl; congruence.
Qed.

End Table.

Lemma map_over_flat_map {A B C : Type} (f : B -> C) (g : A -> list B) (l : list A) :
  map f (flat_map g l) = flat_map (fun x => map f (g x)) l.
Proof.
  induction l as [| a l IH]; simpl; [reflexivity|].
  rewrite map_app, IH. reflexivity.
Qed.

Lemma flat_map_ext_In {A B : Type} (f g : A -> list B) (l : list A) :
  (forall x, In x l -> f x = g x) -> flat_map f l = flat_map g l.
Proof.
  induction l as [| a l IH]; simpl; intro H; [reflexivity|].
  rewrite (H a (or_introl eq_refl)), IH; [reflexivity|].
  intros x Hx. apply H. right. exact Hx.
Qed.

(** The ends of the chords of a layout, read off the matrix. *)
Lemma relayout_ends (l : chord_layout) :
  map ends (snd (relayout l)) = chord_ends (cl_matrix l) (cl_n l).
Proof.
  unfold relayout.
  set (m := cl_matrix l). set (n := cl_n l).
  set (k := scale (cl_padding l) m n).
  assert (H := link_ends_of_table (cl_sortSubgroups l) m n k (cl_padding l)).
  destruct (place_groups (cl_sortSubgroups l) m n k (cl_padding l) (seq 0 n) 0%Q)
    as [gs subs]. simpl in *.
  unfold make_chords, chord_ends. rewrite map_over_flat_map.
  apply flat_map_ext_In. intros i Hi. apply in_seq in Hi.
  rewrite map_over_flat_map. apply flat_map_ext_In. intros j Hj.
  apply in_seq in Hj. apply H; lia.
Qed.

Lemma configured_chords (p : Q) (m : list (list Z)) :
  map ends (fst (chord_chords (configure p m))) = chord_ends m (length m).
Proof. apply (relayout_ends (configure p m)). Qed.

(** ** Chord layout: which chords exist *)

Lemma filter_over_flat_map {A B : Type} (P : B -> bool) (f : A -> list B) (l : list A) :
  filter P (flat_map f l) = flat_map (fun x => filter P (f x)) l.
Proof.
  induction l as [| a l IH]; simpl; [reflexivity|].
  rewrite filter_app, IH. reflexivity.
Qed.

Lemma flat_map_nil {A B : Type} (f : A -> list B) (l : list A) :
  (forall x, In x l -> f x = []) -> flat_map f l = [].
Proof.
  induction l as [| a l IH]; simpl; intro H; [reflexivity|].
  rewrite (H a (or_introl eq_refl)), IH; [reflexivity|].
  intros x Hx. apply H. right. exact Hx.
Qed.

Lemma flat_map_single {A B : Type} (f : A -> list B) (l : list A) (x0 : A) :
  NoDup l -> In x0 l -> (forall x, In x l -> x <> x0 -> f x = []) ->
  flat_map f l = f x0.
Proof.
  induction 1 as [| a l Ha Hnd IH]; simpl; [tauto|].
  intros [-> | Hin] Hf.
  - rewrite flat_map_nil, app_nil_r; [reflexivity|].
    intros x Hx. apply Hf; [right; exact Hx | congruence].
  - rewrite (Hf a (or_introl eq_refl)) by congruence.
    simpl. apply IH; [exact Hin|]. intros x Hx. apply Hf. right. exact Hx.
Qed.

Lemma joins_ordered (a b i j : nat) :
  i <= j -> a <= b ->
  joins a b (i, j) = ((i =? a) && (j =? b))
  /\ joins a b (j, i) = ((i =? a) && (j =? b)).
Proof.
  intros Hij Hab. unfold joins. simpl.
  destruct (Nat.eqb_spec i a), (Nat.eqb_spec j b), (Nat.eqb_spec i b),
    (Nat.eqb_spec j a); simpl; split; try reflexivity; lia.
Qed.

Lemma filter_joins_link_ends (m : list (list Z)) (a b i j : nat) :
  i <= j -> a <= b ->
  filter (joins a b) (link_ends m i j)
  = if (i =? a) && (j =? b) then link_ends m i j else [].
Proof.
  intros Hij Hab. destruct (joins_ordered a b i j Hij Hab) as [H1 H2].
  unfold link_ends.
  destruct (nonzero (weight m i j) || nonzero (weight m j i));
    [| destruct ((i =? a) && (j =? b)); reflexivity].
  destruct (weight m i j <? weight m j i)%Z; simpl;
    [rewrite H2 | rewrite H1]; destruct ((i =? a) && (j =? b)); reflexivity.
Qed.

(** The chords joining [a] and [b] are those of the one cell pair. *)
Lemma chord_ends_joining (m : list (list Z)) (n a b : nat) :
  a <= b -> b < n ->
  filter (joins a b) (chord_ends m n) = link_ends m a b.
Proof.
  intros Hab Hb. unfold chord_ends. rewrite filter_over_flat_map.
  rewrite (flat_map_single _ (seq 0 n) a);
    [| apply seq_NoDup | apply in_seq; lia |].
  - rewrite filter_over_flat_map.
    rewrite (flat_map_single _ (seq a (n - a)) b);
      [| apply seq_NoDup | apply in_seq; lia |].
    + rewrite filter_joins_link_ends by lia. rewrite !Nat.eqb_refl. reflexivity.
    + intros j Hj Hne. apply in_seq in Hj.
      rewrite filter_joins_link_ends by lia.
      rewrite Nat.eqb_refl. simpl.
      destruct (Nat.eqb_spec j b); [contradiction | reflexivity].
  - intros i Hi Hne. rewrite filter_over_flat_map. apply flat_map_nil.
    intros j Hj. apply in_seq in Hj.
    rewrite filter_joins_link_ends by lia.
    destruct (Nat.eqb_spec i a); [contradiction | reflexivity].
Qed.

(** C2, as stated, fails: with [matrix[0][0] = 1] the layout has a chord
    whose source and target are both the subgroup of cell (0, 0). *)
Lemma diagonal_entry_has_chord :
  weight (matrix self_data) 0 0 = 1%Z
  /\ exists c, In c (fst (chord_chords (configure (2 # 100) (matrix self_data))))
               /\ ends c = (0, 0)
               /\ subindex (source c) = 0 /\ subindex (target c) = 0.
Proof.
  split; [reflexivity|].
  set (cs := fst (chord_chords (configure (2 # 100) (matrix self_data)))).
  vm_compute in cs. subst cs.
  eexists. split; [left; reflexivity|]. repeat split.
Qed.

(** C2 (amended).  In the layout of a square matrix, a non-zero diagonal
    entry [matrix[i][i]] produces exactly one chord, from node [i] to
    itself; a zero diagonal entry produces none. *)
Theorem diagonal_chord_iff_nonzero (p : Q) (m : list (list Z)) (i : nat) :
  square m -> i < length m ->
  filter (joins i i) (map ends (fst (chord_chords (configure p m))))
  = if nonzero (weight m i i) then [(i, i)] else [].
Proof.
  intros _ Hi. rewrite configured_chords.
  rewrite chord_ends_joining by lia. unfold link_ends.
  rewrite orb_diag, Z.ltb_irrefl. reflexivity.
Qed.

Lemma diagonal_chord_iff_nonzero_witness :
  filter (joins 0 0)
         (map ends (fst (chord_chords (configure (2 # 100) (matrix self_data)))))
  = [(0, 0)].
Proof.
  apply (diagonal_chord_iff_nonzero (2 # 100) (matrix self_data) 0).
  - repeat constructor.
  - simpl. lia.
Defined.

(** C3, as stated, fails: with [matrix[0][1] = 1] and [matrix[1][0] = 2]
    the layout has a single chord, from node 1 to node 0, and none from
    node 0 to node 1. *)
Lemma opposite_entries_share_one_chord :
  (0 < weight asymmetric_matrix 0 1)%Z /\ (0 < weight asymmetric_matrix 1 0)%Z
  /\ map ends (fst (chord_chords (configure (2 # 100) asymmetric_matrix)))
     = [(1, 0)]
  /\ ~ In (0, 1)
         (map ends (fst (chord_chords (configure (2 # 100) asymmetric_matrix)))).
Proof.
  assert (E : map ends (fst (chord_chords (configure (2 # 100) asymmetric_matrix)))
              = [(1, 0)]) by (vm_compute; reflexivity).
  split; [reflexivity|]. split; [reflexivity|]. split; [exact E|].
  rewrite E. intros [H | []]. discriminate.
Qed.

(** C3 (amended).  In the layout of a square matrix, two distinct nodes
    [a < b] of which one entry [matrix[a][b]], [matrix[b][a]] is non-zero
    are joined by exactly one chord, which stands for both entries: its
    source is the node whose entry is the greater ([a] on a tie).  When
    both entries are zero no chord joins them. *)
Theorem one_chord_per_pair (p : Q) (m : list (list Z)) (a b : nat) :
  square m -> a < b -> b < length m ->
  filter (joins a b) (map ends (fst (chord_chords (configure p m))))
  = if nonzero (weight m a b) || nonzero (weight m b a)
    then [ if (weight m a b <? weight m b a)%Z then (b, a) else (a, b) ]
    else [].
Proof.
  intros _ Hab Hb. rewrite configured_chords.
  apply chord_ends_joining; lia.
Qed.

Lemma one_chord_per_pair_witness :
  filter (joins 0 1)
         (map ends (fst (chord_chords (configure (2 # 100) asymmetric_matrix))))
  = [(1, 0)].
Proof.
  apply (one_chord_per_pair (2 # 100) asymmetric_matrix 0 1).
  - repeat constructor.
  - lia.
  - simpl. lia.
Defined.

(** ** The rendered wheel *)

Lemma fill_None_iff (names : list string) (i : nat) :
  fill names i = None <-> i <> 0 /\ length names <= i.
Proof.
  unfold fill. destruct (Nat.eqb_spec i 0) as [-> | Hi].
  - split; [discriminate | tauto].
  - rewrite <- nth_error_None.
    destruct (nth_error names i); split; intuition congruence.
Qed.

Lemma link_In (ss : option (Z -> Z -> Z)) (m : list (list Z)) (n : nat)
    (k p : Q) (i j : nat) (c : chord) :
  i < n -> j < n ->
  In c (link (snd (place_groups ss m n k p (seq 0 n) 0%Q)) i j) ->
  index (source c) < n /\ index (target c) < n
  /\ subindex (source c) = index (target c)
  /\ subindex (target c) = index (source c)
  /\ value (source c) = weight m (index (source c)) (index (target c))
  /\ value (target c) = weight m (index (target c)) (index (source c))
  /\ (value (target c) <= value (source c))%Z
  /\ (value (source c) <> 0%Z \/ value (target c) <> 0%Z).
Proof.
  intros Hi Hj. unfold link.
  destruct (lookup_table ss m n k p i j Hi Hj) as (s & -> & Hs1 & Hs2 & Hs3).
  destruct (lookup_table ss m n k p j i Hj Hi) as (t & -> & Ht1 & Ht2 & Ht3).
  destruct (weight_truthy (value s) || weight_truthy (value t)) eqn:E;
    [| simpl; tauto].
  apply orb_true_iff in E. unfold weight_truthy in E.
  fold (nonzero (value s)) in E. fold (nonzero (value t)) in E.
  rewrite !nonzero_true in E.
  destruct (Z.ltb_spec (value s) (value t)) as [Hlt | Hge];
    intros [<- | []]; cbn [source target];
    rewrite ?Hs1, ?Hs2, ?Ht1, ?Ht2; repeat split; try lia; try congruence; tauto.
Qed.

Lemma configured_chord_link (p : Q) (m : list (list Z)) (c : chord) :
  In c (fst (chord_chords (configure p m))) ->
  exists i j,
    i < length m /\ j < length m
    /\ In c (link (snd (place_groups (Some descending) m (length m)
                                      (scale p m (length m)) p
                                      (seq 0 (length m)) 0%Q)) i j).
Proof.
  cbn [chord_chords configure chord_matrix cl_chords fst].
  unfold relayout.
  cbn [configure chord_matrix chord_sortSubgroups chord_padding new_chord_layout
       cl_matrix cl_n cl_padding cl_sortSubgroups].
  destruct (place_groups _ _ _ _ _ _ _) as [gs subs]. cbn [snd].
  unfold make_chords. intro Hin.
  apply in_flat_map in Hin. destruct Hin as (i & Hi & Hin).
  apply in_flat_map in Hin. destruct Hin as (j & Hj & Hin).
  apply in_seq in Hi. apply in_seq in Hj.
  exists i, j. repeat split; [lia | lia | exact Hin].
Qed.

Lemma configured_chord_source (p : Q) (m : list (list Z)) (c : chord) :
  In c (fst (chord_chords (configure p m))) -> index (source c) < length m.
Proof.
  intro Hin. destruct (configured_chord_link p m c Hin) as (i & j & Hi & Hj & Hl).
  apply (link_In _ _ _ _ _ _ _ _ Hi Hj Hl).
Qed.

Lemma relayout_group_indices (p : Q) (m : list (list Z)) :
  map g_index (fst (relayout (configure p m))) = seq 0 (length m).
Proof.
  unfold relayout. cbn [configure chord_matrix cl_matrix cl_n cl_padding cl_sortSubgroups].
  match goal with |- context [place_groups ?a ?b ?c ?e ?f ?g ?h] =>
    assert (H := place_groups_indices a b c e f g h);
    destruct (place_groups a b c e f g h) end.
  exact H.
Qed.

Lemma render_unfold (c : chart) (d : data) (p : Q) :
  number_of (padding c) = Some p ->
  render c d
  = match nth_error (fst (relayout (configure p (matrix d)))) 0 with
    | None => None
    | Some rootGroup =>
        if forallb (fun g => returns (fill (names_in_use d) (g_index g)))
                   (fst (relayout (configure p (matrix d))))
        then
          if forallb (fun c => returns (chord_fill (names_in_use d) c))
                     (snd (relayout (configure p (matrix d))))
          then Some {| node_label := map shown (fst (relayout (configure p (matrix d))));
                       chords := map shown (snd (relayout (configure p (matrix d))));
                       rotate := rotation rootGroup |}
          else None
        else None
    end.
Proof. intro Hp. unfold render. rewrite Hp. reflexivity. Qed.

Lemma render_inv (c : chart) (d : data) (w : wheel) :
  render c d = Some w ->
  exists p rootGroup,
    number_of (padding c) = Some p
    /\ nth_error (fst (relayout (configure p (matrix d)))) 0 = Some rootGroup
    /\ w = {| node_label := map shown (fst (relayout (configure p (matrix d))));
              chords := map shown (snd (relayout (configure p (matrix d))));
              rotate := rotation rootGroup |}.
Proof.
  destruct (number_of (padding c)) as [p|] eqn:Hp;
    [| unfold render; rewrite Hp; discriminate].
  rewrite (render_unfold c d p Hp).
  destruct (nth_error _ 0) as [root|] eqn:E; [| discriminate].
  destruct (forallb _ (fst _)); [| discriminate].
  destruct (forallb _ (snd _)); [| discriminate].
  intro H. injection H as <-. exists p, root. auto.
Qed.

Lemma root_group_exists (p : Q) (m : list (list Z)) :
  nth_error (fst (relayout (configure p m))) 0 = None <-> m = [].
Proof.
  rewrite nth_error_None, <- (length_map g_index), relayout_group_indices,
    length_seq.
  destruct m; simpl; split; (congruence || lia).
Qed.

(** [fill] returns for every group unless a node other than the root has
    no name. *)
Lemma group_fills_return (names : list string) (p : Q) (m : list (list Z)) :
  forallb (fun g => returns (fill names (g_index g))) (fst (relayout (configure p m)))
  = true
  <-> length m <= 1 \/ length m <= length names.
Proof.
  assert (Hret : forall i, returns (fill names i) = true
                           <-> i = 0 \/ i < length names).
  { intro i. assert (H := fill_None_iff names i).
    destruct (fill names i); simpl; split; intro H'; try reflexivity.
    - destruct (Nat.eq_dec i 0); [auto|]. right.
      destruct (Nat.lt_ge_cases i (length names)); [assumption|].
      assert (Some s = None) by (apply H; auto). discriminate.
    - discriminate.
    - assert (i <> 0 /\ length names <= i) by (apply H; reflexivity). lia. }
  rewrite forallb_forall. split.
  - intro H.
    destruct (Nat.le_gt_cases (length m) 1) as [|Hn]; [auto|].
    destruct (Nat.le_gt_cases (length m) (length names)) as [|Hl]; [auto|].
    exfalso.
    assert (Hin : In (Nat.max 1 (length names))
                     (map g_index (fst (relayout (configure p m)))))
      by (rewrite relayout_group_indices; apply in_seq; lia).
    apply in_map_iff in Hin. destruct Hin as (g & Hg & Hin).
    specialize (H g Hin). rewrite Hg in H. apply Hret in H. lia.
  - intros H g Hg. apply Hret.
    assert (Hin : In (g_index g) (seq 0 (length m)))
      by (rewrite <- (relayout_group_indices p m); apply in_map; exact Hg).
    apply in_seq in Hin. lia.
Qed.

(** When it returns for every group it returns for every chord. *)
Lemma chord_fills_return (names : list string) (p : Q) (m : list (list Z)) :
  length m <= 1 \/ length m <= length names ->
  forallb (fun c => returns (chord_fill names c)) (snd (relayout (configure p m)))
  = true.
Proof.
  intro H. apply forallb_forall. intros c Hc. unfold chord_fill.
  assert (Hs := configured_chord_source p m c Hc).
  destruct (fill names (index (source c))) eqn:E; [reflexivity|].
  apply fill_None_iff in E. lia.
Qed.


Lemma not_listed_false (groups : list nat) (j : nat) :
  not_listed groups j = false <-> In j groups.
Proof.
  induction groups as [| g rest IH]; simpl; [intuition discriminate|].
  destruct (Nat.eqb_spec g j); [intuition | rewrite IH; intuition].
Qed.

Lemma related_groups_In (cs : list chord) (i j : nat) :
  In j (related_groups cs i)
  <-> j = i \/ In (i, j) (map ends cs) \/ In (j, i) (map ends cs).
Proof.
  unfold related_groups. rewrite in_app_iff, in_flat_map. simpl.
  rewrite !in_map_iff. unfold ends. split.
  - intros [(c & Hc & Hin) | [<- | []]]; [| auto].
    right. apply in_app_or in Hin.
    destruct Hin as [Hin | Hin];
      [destruct (Nat.eqb_spec (index (source c)) i) |
       destruct (Nat.eqb_spec (index (target c)) i)];
      simpl in Hin; try tauto; destruct Hin as [<- | []]; subst i;
      [left | right]; exists c; auto.
  - intros [-> | [(c & E & Hc) | (c & E & Hc)]]; [auto | |];
      injection E as E1 E2; left; exists c; (split; [exact Hc|]);
      apply in_or_app; [left | right].
    + rewrite E1, Nat.eqb_refl. left. exact E2.
    + rewrite E2, Nat.eqb_refl. left. exact E1.
Qed.

Lemma link_ends_In (m : list (list Z)) (i j x y : nat) :
  In (x, y) (link_ends m i j) ->
  ((x = i /\ y = j) \/ (x = j /\ y = i))
  /\ (weight m i j <> 0%Z \/ weight m j i <> 0%Z).
Proof.
  unfold link_ends.
  destruct (nonzero (weight m i j) || nonzero (weight m j i)) eqn:E; [| simpl; tauto].
  apply orb_true_iff in E. rewrite !nonzero_true in E.
  destruct (weight m i j <? weight m j i)%Z; intros [H | []];
    injection H as <- <-; auto.
Qed.

Lemma weight_outside (m : list (list Z)) (i j : nat) :
  square m -> length m <= i \/ length m <= j -> weight m i j = 0%Z.
Proof.
  intros Hs H. unfold weight.
  destruct (nth_error m i) as [row|] eqn:Hr.
  - rewrite (nth_error_nth m i [] Hr). apply nth_overflow.
    rewrite (square_row Hs Hr).
    destruct H as [H | H]; [| exact H].
    assert (i < length m) by (apply nth_error_Some; congruence). lia.
  - apply nth_error_None in Hr. rewrite (nth_overflow m [] Hr).
    destruct j; reflexivity.
Qed.

(** Two nodes are the ends of a chord exactly when one of the two weights
    between them is non-zero. *)
Lemma chord_between (m : list (list Z)) (i j : nat) :
  square m ->
  (In (i, j) (chord_ends m (length m)) \/ In (j, i) (chord_ends m (length m))
   <-> weight m i j <> 0%Z \/ weight m j i <> 0%Z).
Proof.
  intro Hs. split.
  - assert (H : forall x y, In (x, y) (chord_ends m (length m)) ->
                            weight m x y <> 0%Z \/ weight m y x <> 0%Z).
    { intros x y Hin. unfold chord_ends in Hin.
      apply in_flat_map in Hin. destruct Hin as (a & _ & Hin).
      apply in_flat_map in Hin. destruct Hin as (b & _ & Hin).
      apply link_ends_In in Hin.
      destruct Hin as ([[-> ->] | [-> ->]] & Hw); tauto. }
    intros [Hin | Hin]; apply H in Hin; tauto.
  - intro Hw.
    assert (Hb : i < length m /\ j < length m).
    { destruct (Nat.lt_ge_cases i (length m)) as [Hi | Hi];
        [destruct (Nat.lt_ge_cases j (length m)) as [Hj | Hj]; [auto|] |];
        rewrite !(weight_outside m) in Hw by auto; tauto. }
    assert (Hne : forall a b, a <= b -> b < length m ->
                    weight m a b <> 0%Z \/ weight m b a <> 0%Z ->
                    In (a, b) (chord_ends m (length m))
                    \/ In (b, a) (chord_ends m (length m))).
    { intros a b Hab Hlt Hn.
      assert (E := chord_ends_joining m (length m) a b Hab Hlt).
      unfold link_ends in E.
      rewrite <- !nonzero_true, <- orb_true_iff in Hn. rewrite Hn in E.
      destruct (weight m a b <? weight m b a)%Z; [right | left];
        eapply proj1; apply filter_In; rewrite E; left; reflexivity. }
    destruct (Nat.le_ge_cases i j) as [Hij | Hij].
    + apply Hne; [exact Hij | tauto | exact Hw].
    + apply or_comm. apply Hne; [exact Hij | tauto | tauto].
Qed.

Lemma bound_shown {D : Type} (l : list D) : map (@bound D) (map shown l) = l.
Proof.
  rewrite map_map. simpl. apply map_id.
Qed.

Lemma highlighted_after_dimming {D : Type} (sel : D -> bool) (l : list D) :
  highlighted (map (restyle sel (1 # 10)%Q) (map shown l))
  = filter (fun d => negb (sel d)) l.
Proof.
  unfold highlighted. induction l as [| a l IH]; [reflexivity|].
  cbn [map filter]. rewrite <- IH.
  assert (E : restyle sel (1 # 10)%Q (shown a)
              = if sel a then {| bound := a; opacity := (1 # 10)%Q |} else shown a)
    by reflexivity.
  rewrite E. destruct (sel a); reflexivity.
Qed.

Lemma In_map_filter {A B : Type} (f : A -> B) (P : B -> bool) (l : list A) (y : B) :
  In y (map f (filter (fun a => P (f a)) l)) <-> In y (map f l) /\ P y = true.
Proof.
  rewrite !in_map_iff. split.
  - intros (a & <- & Ha). apply filter_In in Ha. destruct Ha. eauto.
  - intros ((a & <- & Ha) & HP). exists a. rewrite filter_In. auto.
Qed.

Lemma nonnegative_weight (m : list (list Z)) (i j : nat) :
  nonnegative m -> (0 <= weight m i j)%Z.
Proof.
  intro H. unfold weight, nonnegative in *. rewrite Forall_forall in H.
  destruct (nth_in_or_default i m []) as [Hr | ->].
  - specialize (H _ Hr). rewrite Forall_forall in H.
    destruct (nth_in_or_default j (nth i m []) 0%Z) as [Hv | ->];
      [apply H; exact Hv | lia].
  - destruct j; simpl; lia.
Qed.

(** ** Highlighting *)

(** C5.  On the wheel rendered for a square matrix of non-negative
    weights, after [fadeOut] with focus index [i] the groups left at full
    opacity are node [i] and the nodes [j] with [matrix[i][j] > 0] or
    [matrix[j][i] > 0], and the chords left at full opacity are those whose
    source or target index is [i]. *)
Theorem fadeOut_highlights_neighbourhood (c : chart) (d : data) (w : wheel)
    (g : datum) (i0 : nat) :
  render c d = Some w -> square (matrix d) -> nonnegative (matrix d) ->
  let i := event_index g i0 in
  let m := matrix d in
  (forall j, In j (map g_index (highlighted (node_label (fadeOut g i0 w))))
             <-> j < length m
                 /\ (j = i \/ (0 < weight m i j)%Z \/ (0 < weight m j i)%Z))
  /\ (forall x, In x (highlighted (chords (fadeOut g i0 w)))
                <-> In x (map (@bound chord) (chords w))
                    /\ (index (source x) = i \/ index (target x) = i)).
Proof.
  intros Hr Hs Hn i m.
  destruct (render_inv c d w Hr) as (p & root & _ & _ & ->).
  unfold fadeOut, fade. cbn [node_label chords rotate]. fold i.
  rewrite !highlighted_after_dimming, bound_shown.
  split.
  - intro j.
    rewrite (In_map_filter g_index
               (fun k => negb (not_listed
                  (related_groups (snd (relayout (configure p (matrix d)))) i) k))).
    rewrite relayout_group_indices, in_seq, negb_true_iff, not_listed_false.
    rewrite related_groups_In, relayout_ends.
    change (cl_matrix (configure p (matrix d))) with m.
    change (cl_n (configure p (matrix d))) with (length m).
    rewrite (chord_between m i j Hs).
    assert (H1 := nonnegative_weight m i j Hn).
    assert (H2 := nonnegative_weight m j i Hn).
    fold m. intuition lia.
  - intro x. rewrite filter_In. unfold unrelated_chord.
    rewrite negb_true_iff, andb_false_iff, !negb_false_iff, !Nat.eqb_eq.
    reflexivity.
Qed.

Lemma fadeOut_highlights_neighbourhood_witness :
  exists w, render (dependencyWheel None) example_data = Some w
    /\ forall j, In j (map g_index (highlighted (node_label (fadeOut (a_group 1) 1 w))))
                 <-> j < 3 /\ (j = 1 \/ (0 < weight example_matrix 1 j)%Z
                                     \/ (0 < weight example_matrix j 1)%Z).
Proof.
  destruct (render (dependencyWheel None) example_data) as [w|] eqn:E;
    [| vm_compute in E; discriminate].
  exists w. split; [reflexivity|].
  apply (fadeOut_highlights_neighbourhood (dependencyWheel None) example_data w
           (a_group 1) 1 E).
  - repeat constructor.
  - repeat constructor; discriminate.
Defined.

(** ** Rotation *)






(** ** Padding *)








(** * Further properties of the chart *)

(** ** The constructor *)

(** Whatever the argument, the constructor leaves no falsy [width],
    [margin] or [padding] behind. *)
Theorem dependencyWheel_truthy (opts : option options) :
  truthy (width (dependencyWheel opts)) = true
  /\ truthy (margin (dependencyWheel opts)) = true
  /\ truthy (padding (dependencyWheel opts)) = true.
Proof.
  assert (H : forall v d, truthy d = true -> truthy (js_or v d) = true).
  { intros v d Hd. unfold js_or. destruct (truthy v) eqn:E; assumption. }
  unfold dependencyWheel. cbn [width margin padding].
  repeat split; apply H; reflexivity.
Qed.

(** ** The selection callback on arbitrary data *)

Lemma mapi_from_length {A B : Type} (f : A -> nat -> B) (l : list A) (k : nat) :
  length (mapi_from f k l) = length l.
Proof.
  revert k. induction l as [| a l IH]; intro k; simpl; [reflexivity|].
  rewrite IH. reflexivity.
Qed.

Lemma mapi_from_nth_error {A B : Type} (f : A -> nat -> B) (l : list A) (k j : nat) :
  nth_error (mapi_from f k l) j
  = option_map (fun a => f a (k + j)) (nth_error l j).
Proof.
  revert k j. induction l as [| a l IH]; intros k j.
  - destruct j; reflexivity.
  - destruct j as [| j]; simpl.
    + rewrite Nat.add_0_r. reflexivity.
    + rewrite IH. replace (S k + j) with (k + S j) by lia. reflexivity.
Qed.

Lemma js_filter_length (l : list jsval) :
  length (js_filter filterTrue l) <= length l.
Proof. apply filter_length_le. Qed.

Lemma js_filter_mapi_In {A : Type} (f : A -> nat -> jsval) (l : list A) (v : jsval) :
  In v (js_filter filterTrue (mapi f l))
  <-> exists j a, nth_error l j = Some a /\ v = f a j /\ truthy v = true.
Proof.
  unfold js_filter, mapi, filterTrue. rewrite filter_In. split.
  - intros [Hin Ht]. apply In_nth_error in Hin. destruct Hin as [j Hj].
    rewrite mapi_from_nth_error in Hj.
    destruct (nth_error l j) as [a|] eqn:E; [| discriminate].
    simpl in Hj. injection Hj as <-. exists j, a. auto.
  - intros (j & a & Hj & -> & Ht). split; [| exact Ht].
    apply (nth_error_In _ j). rewrite mapi_from_nth_error, Hj. reflexivity.
Qed.

Lemma getChosenNode_None (d : data) (g : datum) (i : nat) :
  getChosenNode d g i = None <-> length (matrix d) <= event_index g i.
Proof.
  unfold getChosenNode. rewrite <- nth_error_None.
  destruct (nth_error (matrix d) (event_index g i)); split; congruence.
Qed.

(** For any data whatever, neither list is longer than the row (the
    column) it is read from, and neither holds a falsy value. *)
Theorem chosen_lists_bounded (d : data) (row : list Z) (idx : nat) :
  length (dependencies d row) <= length row
  /\ length (dependents d idx) <= length (matrix d)
  /\ Forall (fun v => truthy v = true) (dependencies d row)
  /\ Forall (fun v => truthy v = true) (dependents d idx).
Proof.
  unfold dependencies, dependents, mapi.
  repeat split; try apply js_filter_truthy.
  - eapply Nat.le_trans; [apply js_filter_length|].
    rewrite mapi_from_length. apply Nat.le_refl.
  - eapply Nat.le_trans; [apply js_filter_length|].
    rewrite mapi_from_length. apply Nat.le_refl.
Qed.

(** In name-only mode the lists hold nothing but non-empty names taken
    from [packageNames]: a node whose name is missing or empty is dropped
    from them without notice. *)
Theorem chosen_lists_hold_names (d : data) (row : list Z) (idx : nat) (v : jsval) :
  packages d = None ->
  In v (dependencies d row) \/ In v (dependents d idx) ->
  exists s, v = Str s /\ In s (packageNames d) /\ s <> EmptyString.
Proof.
  intros Hp.
  assert (Hname : forall j, truthy (name_at (packageNames d) j) = true ->
            exists s, name_at (packageNames d) j = Str s
                      /\ In s (packageNames d) /\ s <> EmptyString).
  { intros j Ht. unfold name_at in *.
    destruct (nth_error (packageNames d) j) as [s|] eqn:E; [| discriminate].
    exists s. split; [reflexivity|]. split; [eapply nth_error_In; eauto|].
    intros ->. discriminate. }
  unfold dependencies, dependents. rewrite !js_filter_mapi_In.
  unfold node_at, names_in_use. rewrite Hp.
  intros [(j & a & _ & -> & Ht) | (j & a & _ & -> & Ht)].
  - destruct (weight_truthy a); [apply Hname; exact Ht | discriminate].
  - rewrite js_and_Bool in *.
    destruct (neq_zero a idx); [apply Hname; exact Ht | discriminate].
Qed.

Lemma chosen_lists_hold_names_witness :
  exists s, Str "A" = Str s /\ In s (packageNames example_data) /\ s <> EmptyString.
Proof.
  apply (chosen_lists_hold_names example_data [0; 1; 1]%Z 0 (Str "A")).
  - reflexivity.
  - left. left. reflexivity.
Defined.

(** A row too short to have a column [idx] counts as depending on node
    [idx]: in name-only mode its node is in the dependent list. *)
Theorem short_row_is_dependent (d : data) (idx j : nat) (arr : list Z) (s : string) :
  packages d = None ->
  nth_error (matrix d) j = Some arr -> length arr <= idx ->
  nth_error (packageNames d) j = Some s -> s <> EmptyString ->
  In (Str s) (dependents d idx).
Proof.
  intros Hp Harr Hlen Hs Hne. unfold dependents. rewrite js_filter_mapi_In.
  exists j, arr. split; [exact Harr|].
  assert (E : neq_zero arr idx = true).
  { unfold neq_zero. apply nth_error_None in Hlen. rewrite Hlen. reflexivity. }
  rewrite E, Hp. unfold names_in_use, name_at. rewrite Hp, Hs.
  split; [reflexivity|]. simpl.
  destruct (String.eqb_spec s EmptyString); [contradiction | reflexivity].
Qed.

Lemma short_row_is_dependent_witness : In (Str "A") (dependents ragged_data 1).
Proof.
  apply (short_row_is_dependent ragged_data 1 1 [0%Z] "A").
  - reflexivity.
  - reflexivity.
  - simpl. lia.
  - reflexivity.
  - discriminate.
Defined.

(** With a [packages] array the dependent list is the selected package,
    once for every row whose entry in column [idx] is non-zero (or that
    has no such entry); it is empty when [packages] has no entry [idx]. *)
Theorem dependents_with_packages (d : data) (pkgs : list package) (idx : nat) :
  packages d = Some pkgs ->
  dependents d idx
  = match nth_error pkgs idx with
    | Some pkg =>
        repeat (Obj pkg)
               (length (filter (fun arr => neq_zero arr idx) (matrix d)))
    | None => []
    end.
Proof.
  intro Hp. unfold dependents, mapi, package_at. rewrite Hp.
  generalize 0 as k.
  induction (matrix d) as [| arr l IH]; intro k.
  - simpl. destruct (nth_error pkgs idx); reflexivity.
  - cbn [mapi_from filter]. rewrite js_and_Bool.
    unfold js_filter in *. cbn [filter]. rewrite IH. unfold filterTrue.
    destruct (neq_zero arr idx); [| reflexivity].
    destruct (nth_error pkgs idx); reflexivity.
Qed.

Lemma dependents_with_packages_witness :
  dependents example_packages 2
  = [Obj {| name := "B" |}; Obj {| name := "B" |}].
Proof.
  apply (dependents_with_packages example_packages
           [ {| name := "Main" |}; {| name := "A" |}; {| name := "B" |} ] 2).
  reflexivity.
Defined.

Lemma node_at_injective (d : data) (a b : nat) :
  packages d = None -> NoDup (packageNames d) ->
  a < length (packageNames d) -> b < length (packageNames d) ->
  node_at d a = node_at d b -> a = b.
Proof.
  intros Hp Hnd Ha Hb. unfold node_at, names_in_use, name_at. rewrite Hp.
  destruct (nth_error (packageNames d) a) as [s|] eqn:Ea;
    [| apply nth_error_None in Ea; lia].
  destruct (nth_error (packageNames d) b) as [t|] eqn:Eb;
    [| apply nth_error_None in Eb; lia].
  intro E. injection E as ->.
  apply (proj1 (NoDup_nth_error (packageNames d)) Hnd a b Ha). congruence.
Qed.

(** With distinct non-empty names on a square matrix, the two lists are
    converse to each other: node [j] is among the dependencies reported for
    [i] exactly when node [i] is among the dependents reported for [j]. *)
Theorem dependencies_converse_of_dependents (d : data) (i j : nat) (row : list Z) :
  square (matrix d) -> labelled d -> packages d = None ->
  NoDup (packageNames d) ->
  nth_error (matrix d) i = Some row -> j < length (matrix d) ->
  (In (node_at d j) (dependencies d row) <-> In (node_at d i) (dependents d j)).
Proof.
  intros Hs Hl Hp Hnd Hr Hj.
  assert (Hi : i < length (matrix d)) by (apply nth_error_Some; congruence).
  assert (Hlen : length (packageNames d) = length (matrix d)).
  { unfold labelled in Hl. rewrite Hp in Hl. tauto. }
  rewrite (dependencies_labelled d i row Hs Hl Hr).
  rewrite (dependents_named d j Hs Hl Hp Hj).
  assert (Hmap : forall a L, a < length (matrix d) ->
            (forall b, In b L -> b < length (matrix d)) ->
            (In (node_at d a) (map (node_at d) L) <-> In a L)).
  { intros a L Ha HL. rewrite in_map_iff. split.
    - intros (b & E & Hb).
      assert (b = a); [| subst; exact Hb].
      apply (node_at_injective d b a Hp Hnd); rewrite ?Hlen; auto.
    - intro Hin. exists a. auto. }
  rewrite !Hmap; auto;
    try (intros b Hb; apply indices_where_In in Hb; tauto).
  rewrite !indices_where_In. tauto.
Qed.

Lemma dependencies_converse_of_dependents_witness :
  In (node_at example_data 2) (dependencies example_data [0; 1; 1]%Z)
  <-> In (node_at example_data 0) (dependents example_data 2).
Proof.
  apply (dependencies_converse_of_dependents example_data 0 2 [0; 1; 1]%Z).
  - repeat constructor.
  - split; [reflexivity | repeat constructor; discriminate].
  - reflexivity.
  - repeat constructor; simpl; intuition discriminate.
  - reflexivity.
  - simpl. lia.
Defined.

(** ** Fading on arbitrary wheels *)

(** A fade changes opacities only: the data bound to the labels and to
    the chords, their number and order, and the rotation stay as they are. *)
Theorem fade_keeps_structure (o : Q) (g : datum) (i : nat) (w : wheel) :
  map (@bound group) (node_label (fade o g i w)) = map (@bound group) (node_label w)
  /\ map (@bound chord) (chords (fade o g i w)) = map (@bound chord) (chords w)
  /\ rotate (fade o g i w) = rotate w.
Proof.
  unfold fade. cbn [node_label chords rotate].
  rewrite !map_bound_restyle. auto.
Qed.

Lemma restyle_twice {D : Type} (sel : D -> bool) (o1 o2 : Q) (e : element D) :
  restyle sel o2 (restyle sel o1 e) = restyle sel o2 e.
Proof.
  unfold restyle. destruct (sel (bound e)) eqn:E; simpl; rewrite E; reflexivity.
Qed.

Lemma restyle_swap {D : Type} (s1 s2 : D -> bool) (o : Q) (e : element D) :
  restyle s1 o (restyle s2 o e) = restyle s2 o (restyle s1 o e).
Proof.
  unfold restyle.
  destruct (s1 (bound e)) eqn:E1, (s2 (bound e)) eqn:E2; simpl;
    rewrite ?E1, ?E2; reflexivity.
Qed.

(** Of two fades for the same element the later one decides: the first
    leaves no trace.  In particular a repeated [fadeOut] changes nothing. *)
Theorem fade_same_index_overrides (o1 o2 : Q) (g : datum) (i : nat) (w : wheel) :
  fade o2 g i (fade o1 g i w) = fade o2 g i w.
Proof.
  unfold fade. cbn [node_label chords rotate].
  rewrite map_bound_restyle, !map_map. f_equal; apply map_ext; intro e;
    apply restyle_twice.
Qed.

(** Fades to the same opacity for different elements commute, so that
    two [fadeOut]s without a [fadeIn] between them dim whatever either of
    them dims. *)
Theorem fade_commutes (o : Q) (g1 g2 : datum) (i1 i2 : nat) (w : wheel) :
  fade o g1 i1 (fade o g2 i2 w) = fade o g2 i2 (fade o g1 i1 w).
Proof.
  unfold fade. cbn [node_label chords rotate].
  rewrite !map_bound_restyle, !map_map. f_equal; apply map_ext; intro e;
    apply restyle_swap.
Qed.

Lemma not_listed_self (cs : list chord) (i : nat) :
  not_listed (related_groups cs i) i = false.
Proof.
  apply not_listed_false, related_groups_In. left. reflexivity.
Qed.

Lemma fade_chord_untouched (o : Q) (g : datum) (i : nat) (w : wheel)
    (k : nat) (e : element chord) :
  nth_error (chords w) k = Some e ->
  index (source (bound e)) = event_index g i
  \/ index (target (bound e)) = event_index g i ->
  nth_error (chords (fade o g i w)) k = Some e.
Proof.
  intros Hk He. unfold fade. cbn [chords].
  rewrite nth_error_map, Hk. simpl. f_equal. unfold restyle, unrelated_chord.
  destruct He as [-> | ->]; rewrite Nat.eqb_refl; simpl;
    rewrite ?andb_false_r; reflexivity.
Qed.

(** No fade touches the label of the node it is invoked for, nor a chord
    that starts or ends at that node. *)
Theorem fade_spares_focus (o : Q) (g : datum) (i : nat) (w : wheel) :
  (forall k e, nth_error (node_label w) k = Some e ->
               g_index (bound e) = event_index g i ->
               nth_error (node_label (fade o g i w)) k = Some e)
  /\ (forall k e, nth_error (chords w) k = Some e ->
                  index (source (bound e)) = event_index g i
                  \/ index (target (bound e)) = event_index g i ->
                  nth_error (chords (fade o g i w)) k = Some e).
Proof.
  split.
  - intros k e Hk He. unfold fade. cbn [node_label].
    rewrite nth_error_map, Hk. simpl. f_equal. unfold restyle.
    rewrite He, not_listed_self. reflexivity.
  - intros k e. apply fade_chord_untouched.
Qed.

Lemma fade_spares_focus_witness :
  nth_error (node_label (fadeOut (a_group 1) 1 small_wheel)) 1 = Some (a_label 1).
Proof.
  apply (fade_spares_focus (1 # 10) (a_group 1) 1 small_wheel);
    reflexivity.
Defined.

(** When the pointer is on a chord, that chord and the labels of the two
    nodes it joins are left as they are. *)
Theorem fade_spares_hovered_chord (o : Q) (c : element chord) (i : nat) (w : wheel) :
  In c (chords w) ->
  (forall k, nth_error (chords w) k = Some c ->
             nth_error (chords (fade o (ChordDatum (bound c)) i w)) k = Some c)
  /\ (forall k e, nth_error (node_label w) k = Some e ->
                  g_index (bound e) = index (source (bound c))
                  \/ g_index (bound e) = index (target (bound c)) ->
                  nth_error (node_label (fade o (ChordDatum (bound c)) i w)) k
                  = Some e).
Proof.
  intro Hc. split.
  - intros k Hk.
    apply (fade_chord_untouched o (ChordDatum (bound c)) i w k c Hk).
    left. reflexivity.
  - intros k e Hk He. unfold fade. cbn [node_label event_index].
    rewrite nth_error_map, Hk. simpl. f_equal. unfold restyle.
    assert (Hin : In (g_index (bound e))
                     (related_groups (map (@bound chord) (chords w))
                                     (index (source (bound c))))).
    { destruct He as [-> | ->]; [apply related_groups_In; left; reflexivity|].
      apply related_groups_In. right. left.
      apply in_map_iff. exists (bound c). split; [reflexivity|].
      apply in_map. exact Hc. }
    apply not_listed_false in Hin. rewrite Hin. reflexivity.
Qed.

Lemma fade_spares_hovered_chord_witness :
  nth_error (node_label
               (fadeOut (ChordDatum {| source := a_subgroup 1 2 1;
                                       target := a_subgroup 2 1 0 |})
                        0 small_wheel)) 2
  = Some (a_label 2).
Proof.
  apply (fade_spares_hovered_chord (1 # 10)
           (shown {| source := a_subgroup 1 2 1; target := a_subgroup 2 1 0 |})
           0 small_wheel).
  - left. reflexivity.
  - reflexivity.
  - right. reflexivity.
Defined.

(** For a node that no chord touches, a fade restyles every chord and
    every label but the node's own. *)
Theorem fade_isolated_node (o : Q) (g : datum) (i : nat) (w : wheel) :
  Forall (fun e => unrelated_chord (event_index g i) (bound e) = true) (chords w) ->
  chords (fade o g i w)
  = map (fun e => {| bound := bound e; opacity := o |}) (chords w)
  /\ node_label (fade o g i w)
     = map (fun e => if g_index (bound e) =? event_index g i
                     then e else {| bound := bound e; opacity := o |})
           (node_label w).
Proof.
  intro H. unfold fade. cbn [node_label chords]. split.
  - apply map_ext_in. intros e He. rewrite Forall_forall in H.
    unfold restyle. rewrite (H e He). reflexivity.
  - assert (E : related_groups (map (@bound chord) (chords w)) (event_index g i)
                = [event_index g i]).
    { unfold related_groups.
      rewrite flat_map_nil; [reflexivity|].
      intros c Hc. apply in_map_iff in Hc. destruct Hc as (e & <- & He).
      rewrite Forall_forall in H. specialize (H e He).
      unfold unrelated_chord in H. apply andb_true_iff in H.
      destruct H as [H1 H2]. apply negb_true_iff in H1, H2.
      rewrite H1, H2. reflexivity. }
    rewrite E. apply map_ext. intro e. unfold restyle. simpl.
    rewrite Nat.eqb_sym. destruct (g_index (bound e) =? event_index g i); reflexivity.
Qed.

Lemma fade_isolated_node_witness :
  chords (fadeOut (a_group 0) 0 small_wheel)
  = map (fun e => {| bound := bound e; opacity := (1 # 10)%Q |}) (chords small_wheel).
Proof.
  apply (fade_isolated_node (1 # 10) (a_group 0) 0 small_wheel).
  repeat constructor.
Defined.

(** ** Colours *)

Lemma string_length_append (a b : string) :
  String.length (a ++ b) = String.length a + String.length b.
Proof. induction a as [| c a IH]; simpl; [reflexivity | rewrite IH; reflexivity]. Qed.

Lemma string_append_cancel (a b suffix : string) :
  (a ++ suffix = b ++ suffix)%string -> a = b.
Proof.
  revert b. induction a as [| c a IH]; intros [| c' b] H; simpl in H.
  - reflexivity.
  - apply (f_equal String.length) in H. simpl in H.
    rewrite string_length_append in H. lia.
  - apply (f_equal String.length) in H. simpl in H.
    rewrite string_length_append in H. lia.
  - injection H as -> H. f_equal. apply IH. exact H.
Qed.

Lemma hsl_injective (a b : string) : hsl a = hsl b -> a = b.
Proof.
  unfold hsl. simpl. intro H. injection H as H.
  apply string_append_cancel in H. exact H.
Qed.

Lemma to_int_proper (z : Z) :
  Z.to_int z <> Decimal.Pos Decimal.Nil /\ Z.to_int z <> Decimal.Neg Decimal.Nil.
Proof.
  destruct z; simpl; split; try discriminate; intro H; injection H as H;
    exact (DecimalPos.Unsigned.to_uint_nonnil _ H).
Qed.

Lemma decimal_injective (a b : Z) : decimal a = decimal b -> a = b.
Proof.
  unfold decimal. intro H. apply DecimalZ.to_int_inj.
  destruct (to_int_proper a) as [Ha1 Ha2]. destruct (to_int_proper b) as [Hb1 Hb2].
  assert (E : NilZero.int_of_string (NilZero.string_of_int (Z.to_int a))
              = NilZero.int_of_string (NilZero.string_of_int (Z.to_int b)))
    by (rewrite H; reflexivity).
  rewrite !NilZero.isi in E by assumption. congruence.
Qed.

Lemma hue_increasing (c1 c2 : Z) : (c1 < c2)%Z -> (hue c1 < hue c2)%Z.
Proof.
  unfold hue. intro H. Z.to_euclidean_division_equations. lia.
Qed.

Lemma hue_injective (c1 c2 : Z) : hue c1 = hue c2 -> c1 = c2.
Proof.
  intro H. destruct (Z.lt_trichotomy c1 c2) as [Hlt | [-> | Hlt]];
    [| reflexivity |]; apply hue_increasing in Hlt; lia.
Qed.

Lemma fill_named (names : list string) (i : nat) (a : ascii) (rest : string) :
  i <> 0 -> nth_error names i = Some (String a rest) ->
  fill names i = Some (hsl (decimal (hue (Z.of_nat (nat_of_ascii a))))).
Proof.
  intros Hi Hs. unfold fill. destruct (Nat.eqb_spec i 0); [contradiction|].
  rewrite Hs. reflexivity.
Qed.

(** A node other than the root whose name starts with the character [a]
    is filled with ["hsl(h,90%,70%)"], where [h] lies in the range of hues
    [0 <= h < 360] exactly when [a] is one of the lowercase letters
    a to z (codes 97 to 122); any other first character, an uppercase
    letter for one, gives a hue outside it. *)
Theorem fill_hue_in_range_iff_lowercase (names : list string) (i : nat)
    (a : ascii) (rest : string) :
  i <> 0 -> nth_error names i = Some (String a rest) ->
  let c := Z.of_nat (nat_of_ascii a) in
  fill names i = Some (hsl (decimal (hue c)))
  /\ ((0 <= hue c < 360)%Z <-> (97 <= c <= 122)%Z).
Proof.
  intros Hi Hs c. split.
  - apply (fill_named names i a rest Hi Hs).
  - unfold hue. Z.to_euclidean_division_equations. lia.
Qed.

Lemma fill_hue_in_range_iff_lowercase_witness :
  fill example_names 2 = Some (hsl (decimal (hue 98)))
  /\ ((0 <= hue 98 < 360)%Z <-> (97 <= 98 <= 122)%Z).
Proof.
  apply (fill_hue_in_range_iff_lowercase example_names 2 "b" "eta");
    [discriminate | reflexivity].
Defined.

Lemma nat_of_ascii_injective (a b : ascii) :
  nat_of_ascii a = nat_of_ascii b -> a = b.
Proof.
  intro H. rewrite <- (ascii_nat_embedding a), <- (ascii_nat_embedding b), H.
  reflexivity.
Qed.

(** Two nodes other than the root, with non-empty names, get the same
    colour exactly when their names start with the same character. *)
Theorem fill_equal_iff_same_initial (names : list string) (i j : nat)
    (a b : ascii) (r1 r2 : string) :
  i <> 0 -> j <> 0 ->
  nth_error names i = Some (String a r1) ->
  nth_error names j = Some (String b r2) ->
  (fill names i = fill names j <-> a = b).
Proof.
  intros Hi Hj Ha Hb.
  rewrite (fill_named names i a r1 Hi Ha), (fill_named names j b r2 Hj Hb).
  split.
  - intro H.
    apply (f_equal (fun o => match o with Some s => s | None => EmptyString end))
      in H.
    cbv beta iota in H.
    apply hsl_injective, decimal_injective, hue_injective in H.
    apply nat_of_ascii_injective. lia.
  - intros ->. reflexivity.
Qed.

Lemma fill_equal_iff_same_initial_witness :
  fill example_names 1 = fill example_names 2 <-> "a"%char = "b"%char.
Proof.
  apply (fill_equal_iff_same_initial example_names 1 2 "a" "b" "lpha" "eta");
    (discriminate || reflexivity).
Defined.

(** ** Rendering *)

Lemma name_at_all (names : list string) :
  map (name_at names) (seq 0 (length names)) = map Str names.
Proof.
  assert (H : forall l k, map (fun i => name_at l (i - k)) (seq k (length l))
                          = map Str l).
  { induction l as [| s l IH]; intro k; [reflexivity|].
    cbn [length seq map]. rewrite Nat.sub_diag. f_equal.
    rewrite <- (IH (S k)). apply map_ext_in. intros i Hi. apply in_seq in Hi.
    replace (i - k) with (S (i - S k)) by lia. reflexivity. }
  rewrite <- (H names 0). apply map_ext. intro i. rewrite Nat.sub_0_r. reflexivity.
Qed.

(** With a numeric padding, rendering throws in two cases only: when the
    matrix is empty (there is no group 0 to centre the wheel on), and when
    the matrix has at least two rows and more rows than there are names in
    use ([fill] then reads the first character of a missing name). *)
Theorem render_throws_iff (c : chart) (d : data) (p : Q) :
  number_of (padding c) = Some p ->
  (render c d = None
   <-> matrix d = []
       \/ (2 <= length (matrix d)
           /\ length (names_in_use d) < length (matrix d))).
Proof.
  intro Hp. rewrite (render_unfold c d p Hp).
  assert (Hg := group_fills_return (names_in_use d) p (matrix d)).
  assert (Hc := chord_fills_return (names_in_use d) p (matrix d)).
  destruct (nth_error _ 0) as [root|] eqn:E.
  - assert (Hm : matrix d <> []).
    { intro Hm. apply (proj2 (root_group_exists p (matrix d))) in Hm. congruence. }
    destruct (forallb _ (fst _)) eqn:Eg.
    + rewrite Hc by (apply Hg; reflexivity).
      split; [discriminate|]. intros [H | H]; [contradiction|].
      assert (length (matrix d) <= 1
              \/ length (matrix d) <= length (names_in_use d))
        by (apply Hg; reflexivity).
      lia.
    + split; [intros _ | intros _; reflexivity]. right.
      destruct (Nat.le_gt_cases (length (matrix d)) 1) as [H1 | H1];
        [discriminate (proj2 Hg (or_introl H1))|].
      destruct (Nat.le_gt_cases (length (matrix d)) (length (names_in_use d)))
        as [H2 | H2];
        [discriminate (proj2 Hg (or_intror H2))|].
      lia.
  - apply root_group_exists in E. split; [intros _; left; exact E | intros _; reflexivity].
Qed.

Lemma render_throws_iff_witness :
  render (dependencyWheel None)
         {| matrix := [[0; 1]; [1; 0]]%Z; packageNames := ["Main"]%string;
            packages := None |} = None.
Proof.
  apply (render_throws_iff (dependencyWheel None) _ (2 # 100)).
  - reflexivity.
  - right. simpl. lia.
Defined.

Lemma rendered_group_indices (c : chart) (d : data) (w : wheel) :
  render c d = Some w ->
  map g_index (map (@bound group) (node_label w)) = seq 0 (length (matrix d)).
Proof.
  intro Hr. destruct (render_inv c d w Hr) as (p & root & _ & _ & ->).
  cbn [node_label]. rewrite bound_shown. apply relayout_group_indices.
Qed.

(** A rendered wheel is in the neutral state and has one label per row of
    the matrix, in row order; when there are as many names in use as rows,
    the labels read those names, which with a [packages] array are the
    packages' names and not [data.packageNames]. *)
Theorem rendered_labels (c : chart) (d : data) (w : wheel) :
  render c d = Some w ->
  neutral w
  /\ map g_index (map (@bound group) (node_label w)) = seq 0 (length (matrix d))
  /\ (length (names_in_use d) = length (matrix d) ->
      map (label_text d) (map (@bound group) (node_label w))
      = map Str (names_in_use d))
  /\ (forall pkgs, packages d = Some pkgs -> names_in_use d = map name pkgs).
Proof.
  intro Hr. assert (Hg := rendered_group_indices c d w Hr).
  split; [| split; [exact Hg | split]].
  - destruct (render_inv c d w Hr) as (p & root & _ & _ & ->).
    cbn [node_label chords].
    split; apply Forall_forall; intros e He; apply in_map_iff in He;
      destruct He as (x & <- & _); reflexivity.
  - intro Hlen. unfold label_text.
    rewrite <- (map_map g_index (name_at (names_in_use d))).
    rewrite Hg, <- Hlen. apply name_at_all.
  - intros pkgs Hp. unfold names_in_use. rewrite Hp. reflexivity.
Qed.

Lemma rendered_labels_witness :
  exists w, render (dependencyWheel None) example_packages = Some w
    /\ map (label_text example_packages) (map (@bound group) (node_label w))
       = [Str "Main"; Str "A"; Str "B"].
Proof.
  destruct (render (dependencyWheel None) example_packages) as [w|] eqn:E;
    [| vm_compute in E; discriminate].
  exists w. split; [reflexivity|].
  apply (rendered_labels (dependencyWheel None) example_packages w E).
  reflexivity.
Defined.

(** ** The chords of the layout *)

(** Every chord of the layout joins two nodes of the matrix; its two ends
    are the two opposite cells between them ([source] is cell (i, j) and
    [target] cell (j, i)), each carrying its weight; one of the weights is
    non-zero, and the source is the end with the greater one. *)
Theorem chords_well_formed (p : Q) (m : list (list Z)) (c : chord) :
  square m -> In c (fst (chord_chords (configure p m))) ->
  index (source c) < length m /\ index (target c) < length m
  /\ subindex (source c) = index (target c)
  /\ subindex (target c) = index (source c)
  /\ value (source c) = weight m (index (source c)) (index (target c))
  /\ value (target c) = weight m (index (target c)) (index (source c))
  /\ (value (target c) <= value (source c))%Z
  /\ (value (source c) <> 0%Z \/ value (target c) <> 0%Z).
Proof.
  intros _ Hin.
  destruct (configured_chord_link p m c Hin) as (i & j & Hi & Hj & Hl).
  exact (link_In _ _ _ _ _ _ _ _ Hi Hj Hl).
Qed.

Lemma chords_well_formed_witness :
  Forall (fun c => (value (target c) <= value (source c))%Z)
         (fst (chord_chords (configure (2 # 100) asymmetric_matrix))).
Proof.
  apply Forall_forall. intros c Hc.
  apply (chords_well_formed (2 # 100) asymmetric_matrix c);
    [repeat constructor | exact Hc].
Defined.

Lemma flat_map_length_le {A B : Type} (f : A -> list B) (g : A -> nat) (l : list A) :
  (forall x, In x l -> length (f x) <= g x) ->
  length (flat_map f l) <= list_sum (map g l).
Proof.
  induction l as [| a l IH]; intro H; simpl; [lia|].
  rewrite length_app.
  assert (Ha := H a (or_introl eq_refl)).
  assert (Hl : length (flat_map f l) <= list_sum (map g l))
    by (apply IH; intros x Hx; apply H; right; exact Hx).
  lia.
Qed.

Lemma triangle_sum (a len : nat) :
  2 * list_sum (map (fun i => a + len - i) (seq a len)) = len * (len + 1).
Proof.
  revert a. induction len as [| len IH]; intro a; [reflexivity|].
  cbn [seq map list_sum].
  assert (E : map (fun i => a + S len - i) (seq (S a) len)
              = map (fun i => S a + len - i) (seq (S a) len)).
  { apply map_ext. intro i. f_equal. lia. }
  rewrite E. specialize (IH (S a)).
  replace (a + S len - a) with (S len) by lia.
  set (s := list_sum (map (fun i => S a + len - i) (seq (S a) len))) in *.
  change (2 * (S len + s) = S len * (S len + 1)). clearbody s. nia.
Qed.

(** A matrix of [n] rows gives at most [n (n + 1) / 2] chords, whatever
    its weights; a matrix without any non-zero weight gives none. *)
Theorem chords_count (p : Q) (m : list (list Z)) :
  2 * length (fst (chord_chords (configure p m))) <= length m * (length m + 1)
  /\ ((forall i j, weight m i j = 0%Z) -> fst (chord_chords (configure p m)) = []).
Proof.
  split.
  - rewrite <- (length_map ends), configured_chords.
    rewrite <- (triangle_sum 0 (length m)). apply Nat.mul_le_mono_l.
    unfold chord_ends. apply flat_map_length_le. intros i Hi.
    apply in_seq in Hi.
    eapply Nat.le_trans;
      [apply (flat_map_length_le _ (fun _ => 1)) |].
    + intros j _. unfold link_ends.
      destruct (nonzero (weight m i j) || nonzero (weight m j i)); simpl; lia.
    + assert (E : forall l : list nat, list_sum (map (fun _ => 1) l) = length l)
        by (induction l; simpl; lia).
      rewrite E, length_seq. lia.
  - intro Hz. apply (map_eq_nil ends). rewrite configured_chords.
    unfold chord_ends. apply flat_map_nil. intros i _.
    apply flat_map_nil. intros j _. unfold link_ends. rewrite !Hz. reflexivity.
Qed.

Lemma chords_count_witness :
  fst (chord_chords (configure (2 # 100) [[0; 0]; [0; 0]]%Z)) = [].
Proof.
  apply (chords_count (2 # 100) [[0; 0]; [0; 0]]%Z).
  intros [| [| i]] [| [| j]]; try reflexivity;
    try (destruct i; reflexivity); destruct j; reflexivity.
Defined.

(** ** Handlers and colours on a rendered wheel *)

Lemma rendered_chords (c : chart) (d : data) (w : wheel) :
  render c d = Some w ->
  exists p, number_of (padding c) = Some p
            /\ map (@bound chord) (chords w) = fst (chord_chords (configure p (matrix d)))
            /\ map (@bound group) (node_label w) = fst (chord_groups (configure p (matrix d))).
Proof.
  intro Hr. destruct (render_inv c d w Hr) as (p & root & Hp & _ & ->).
  exists p. cbn [chords node_label]. rewrite !bound_shown. auto.
Qed.

(** On a rendered wheel of a square matrix a click never makes the
    handler throw: the index it selects, the position of the label clicked
    or the source node of the chord clicked, is always a row of the
    matrix. *)
Theorem click_never_throws (c : chart) (d : data) (w : wheel) :
  render c d = Some w -> square (matrix d) ->
  (forall k e, nth_error (node_label w) k = Some e ->
               g_index (bound e) = k
               /\ getChosenNode d (GroupDatum (bound e)) k <> None)
  /\ (forall k e, nth_error (chords w) k = Some e ->
                  getChosenNode d (ChordDatum (bound e)) k <> None).
Proof.
  intros Hr Hs.
  destruct (rendered_chords c d w Hr) as (p & _ & Hc & _).
  assert (Hg := rendered_group_indices c d w Hr).
  split.
  - intros k e Hk.
    assert (Hk' : nth_error (map g_index (map (@bound group) (node_label w))) k
                  = Some (g_index (bound e)))
      by (rewrite !nth_error_map, Hk; reflexivity).
    rewrite Hg in Hk'.
    assert (Hlt : k < length (seq 0 (length (matrix d))))
      by (apply nth_error_Some; congruence).
    rewrite length_seq in Hlt.
    rewrite nth_error_seq in Hk'.
    destruct (Nat.ltb_spec k (length (matrix d))); [| lia].
    injection Hk' as Hk'. simpl in Hk'. split; [congruence|].
    rewrite getChosenNode_None. simpl. lia.
  - intros k e Hk. rewrite getChosenNode_None. simpl.
    assert (Hin : In (bound e) (fst (chord_chords (configure p (matrix d))))).
    { rewrite <- Hc. apply in_map. eapply nth_error_In. exact Hk. }
    assert (H := configured_chord_source p (matrix d) (bound e) Hin). lia.
Qed.

Lemma click_never_throws_witness :
  exists w, render (dependencyWheel None) example_data = Some w
    /\ Forall (fun e => getChosenNode example_data (ChordDatum (bound e)) 0 <> None)
              (chords w).
Proof.
  destruct (render (dependencyWheel None) example_data) as [w|] eqn:E;
    [| vm_compute in E; discriminate].
  exists w. split; [reflexivity|].
  apply Forall_forall. intros e He. apply In_nth_error in He.
  destruct He as [k Hk].
  apply (proj2 (click_never_throws (dependencyWheel None) example_data w E
                  ltac:(repeat constructor)) k e Hk).
Defined.


